(** * Grid sampler of NiftyNet: coordinate generation and batch padding

    A shallow embedding of [engine/grid_sampler.py]:
    - [_enumerate_step_points]: the one-dimensional step enumerator,
    - [generate_grid_coordinates]: the N-dimensional coordinate generator,
    - [GridSampler.layer_op]: the lazy patch iterator, as the trace of
      the calls it makes to the patch sink.

    Python integers are unbounded, so they are modelled by [Z]; the
    spatial rank is a number that may be fractional (2.5 stands for
    two windowed dimensions and one auxiliary dimension), so it is
    modelled by [Q]. *)

From Stdlib Require Import ZArith QArith Qround List Bool Lia Sorted.
From Stdlib Require String.
Import ListNotations.
Open Scope Z_scope.

(* ================================================================= *)
(** ** numpy helpers *)

(** [np.unique] on a one-dimensional integer array: the sorted distinct
    values.  The array is built by inserting each value at its place
    and dropping a value that is already there. *)
Fixpoint insert_unique (x : Z) (l : list Z) : list Z :=
  match l with
  | [] => [x]
  | y :: t =>
      if x <? y then x :: l
      else if x =? y then l
      else y :: insert_unique x t
  end.

Definition np_unique (l : list Z) : list Z := fold_right insert_unique [] l.

(* ================================================================= *)
(** ** The step enumerator *)

Module StepPoints.

(** The [while] loop of [_enumerate_step_points].  Python gives no
    bound on the number of iterations, so the loop takes [fuel]: [None]
    means that the fuel ran out before the loop condition failed. *)
Fixpoint sampling_loop (fuel : nat) (starting ending win_size step_size : Z)
    (sampling_point_set : list Z) : option (list Z) :=
  match fuel with
  | O => None
  | S fuel' =>
      if starting + win_size <=? ending
      then sampling_loop fuel' (starting + step_size) ending win_size step_size
             (sampling_point_set ++ [starting])
      else Some sampling_point_set
  end.

(** Iterations that are enough whenever the loop stops at all: with a
    step of at least one the condition fails after at most
    [ending - win_size - starting + 1] rounds, and with a smaller step
    it fails at once or never. *)
Definition loop_bound (starting ending win_size : Z) : nat :=
  S (Z.to_nat (ending - win_size - starting + 1)).

End StepPoints.

(** [_enumerate_step_points]: [None] stands for a loop that never
    stops (see [StepPointsFacts.enumerate_None_diverges]). *)
Definition _enumerate_step_points (starting ending win_size step_size : Z)
  : option (list Z) :=
  match StepPoints.sampling_loop
          (StepPoints.loop_bound starting ending win_size)
          starting ending win_size step_size [] with
  | None => None
  | Some sampling_point_set =>
      Some (np_unique (sampling_point_set ++ [Z.max (ending - win_size) 0]))
  end.

(** The points the loop records: [starting + j * step_size], as long as
    the loop condition held at every round up to [j]. *)
Definition recorded_by_loop (starting ending win_size step_size x : Z) : Prop :=
  exists j : nat,
    x = starting + Z.of_nat j * step_size /\
    forall i : nat, (i <= j)%nat ->
      starting + Z.of_nat i * step_size + win_size <= ending.

(** A position [x] is covered when some window [[c, c + win_size)]
    placed at a step point holds it. *)
Definition coveredb (steps : list Z) (win_size x : Z) : bool :=
  existsb (fun c => (c <=? x) && (x <? c + win_size)) steps.

Definition covered (steps : list Z) (win_size x : Z) : Prop :=
  exists c, In c steps /\ c <= x < c + win_size.

(* ================================================================= *)
(** ** Outcomes of a Python call *)

Inductive exception : Type :=
| AssertionError
| IndexError
| ValueError
| AttributeError
| NotImplementedError
| ZeroDivisionError.

(** A call returns a value, raises, or never comes back. *)
Inductive outcome (A : Type) : Type :=
| Return (a : A)
| Raise (e : exception)
| Diverge.

Arguments Return {A} a.
Arguments Raise {A} e.
Arguments Diverge {A}.

Definition bind {A B : Type} (m : outcome A) (k : A -> outcome B) : outcome B :=
  match m with
  | Return a => k a
  | Raise e => Raise e
  | Diverge => Diverge
  end.

Notation "x <- m ;; k" := (bind m (fun x => k))
  (at level 61, m at next level, right associativity).

Definition or_raise {A : Type} (e : exception) (o : option A) : outcome A :=
  match o with
  | Some a => Return a
  | None => Raise e
  end.

Fixpoint mapM {A B : Type} (f : A -> outcome B) (l : list A) : outcome (list B) :=
  match l with
  | [] => Return []
  | a :: t => b <- f a ;; bs <- mapM f t ;; Return (b :: bs)
  end.

Fixpoint foldM {A S : Type} (f : S -> A -> outcome S) (l : list A) (s : S)
  : outcome S :=
  match l with
  | [] => Return s
  | a :: t => s' <- f s a ;; foldM f t s'
  end.

(* ================================================================= *)
(** ** Python sequences *)

(** [range(0, n)]: empty when [n] is not positive. *)
Definition py_range (n : Z) : list Z := map Z.of_nat (seq 0 (Z.to_nat n)).

(** [l[i]]: a negative index counts from the end; out of range is an
    [IndexError]. *)
Definition py_getitem {A : Type} (l : list A) (i : Z) : option A :=
  let len := Z.of_nat (length l) in
  if i <? 0
  then if 0 <=? len + i then nth_error l (Z.to_nat (len + i)) else None
  else nth_error l (Z.to_nat i).

(** [l[:k]]: a negative stop counts from the end; never fails. *)
Definition py_slice_to {A : Type} (l : list A) (k : Z) : list A :=
  if k <? 0
  then firstn (Z.to_nat (Z.of_nat (length l) + k)) l
  else firstn (Z.to_nat k) l.

(* ================================================================= *)
(** ** numpy arrays *)

(** A two-dimensional integer array: [shape1] columns and the rows,
    each of [shape1] entries; [shape[0]] is the number of rows. *)
Record ndarray2 : Type := mk_ndarray2 {
  shape1 : nat;
  rows : list (list Z)
}.

Definition shape0 (a : ndarray2) : nat := length (rows a).

(** All the points of a grid, the first axis varying slowest (C order). *)
Fixpoint cartesian (axes : list (list Z)) : list (list Z) :=
  match axes with
  | [] => [[]]
  | xs :: rest => flat_map (fun x => map (cons x) (cartesian rest)) xs
  end.

Definition swap01 {A : Type} (l : list A) : list A :=
  match l with
  | a :: b :: t => b :: a :: t
  | _ => l
  end.

(** [np.meshgrid] on the arrays [xi], with its default xy indexing: one array per
    input, all of shape [(N2, N1, N3, ...)], that is with the first two
    axes exchanged; the array of input [d] holds at each grid point the
    value taken from input [d].  Each array is given flattened in C
    order. *)
Definition meshgrid (xi : list (list Z)) : list (list Z) :=
  let points := cartesian (swap01 xi) in
  map (fun d => map (fun p => nth d (swap01 p) 0) points)
      (seq 0 (length xi)).

(** Cut a flat array into [k] consecutive pieces of [n] entries. *)
Fixpoint chunks (n k : nat) (flat : list Z) : list (list Z) :=
  match k with
  | O => []
  | S k' => firstn n flat :: chunks n k' (skipn n flat)
  end.

(** [np.asarray(arrays).reshape((n, -1))]: the arrays are laid out one
    after the other and cut again into [n] rows.  numpy refuses a
    negative [n], an [n] that does not divide the size, and [n = 0]
    (the free dimension is then undetermined). *)
Definition reshape_rows (n : Z) (arrays : list (list Z)) : outcome (list (list Z)) :=
  let flat := concat arrays in
  let size := Z.of_nat (length flat) in
  if n <=? 0 then Raise ValueError
  else if negb (size mod n =? 0) then Raise ValueError
  else Return (chunks (Z.to_nat (size / n)) (Z.to_nat n) flat).

(** [np.zeros((n, m), dtype=np.int)]; a negative extent is refused. *)
Definition np_zeros (n : nat) (m : Z) : outcome ndarray2 :=
  if m <? 0 then Raise ValueError
  else Return (mk_ndarray2 (Z.to_nat m) (repeat (repeat 0 (Z.to_nat m)) n)).

Fixpoint replace_nth (k : nat) (v : Z) (row : list Z) : list Z :=
  match row, k with
  | [], _ => []
  | _ :: t, O => v :: t
  | x :: t, S k' => x :: replace_nth k' v t
  end.

(** [a[:, c] = values]: column [c] of row [r] receives [values[r]].  A
    negative [c] counts from the last column; a column out of range is
    an [IndexError].  The generator only assigns arrays that have one
    entry per row. *)
Definition set_column (a : ndarray2) (c : Z) (values : list Z) : outcome ndarray2 :=
  let m := Z.of_nat (shape1 a) in
  if (c <? - m) || (m <=? c) then Raise IndexError
  else
    let k := Z.to_nat (if c <? 0 then m + c else c) in
    Return (mk_ndarray2 (shape1 a)
              (map (fun rv => replace_nth k (snd rv) (fst rv))
                   (combine (rows a) values))).

(** Conversion of a float to an array extent: the fraction is dropped. *)
Definition Qtruncate (q : Q) : Z :=
  if Qle_bool 0 q then Qfloor q else Qceiling q.

Definition Qlt_bool (a b : Q) : bool := negb (Qle_bool b a).

(* ================================================================= *)
(** ** The coordinate generator *)

(** The step points of one dimension of extent [d]; a step enumerator
    that never stops makes the whole call diverge. *)
Definition steps_or_diverge (d win_size step_size : Z) : outcome (list Z) :=
  match _enumerate_step_points 0 d win_size step_size with
  | Some steps => Return steps
  | None => Diverge
  end.

(** The body of the loop that turns the mesh grid into coordinates. *)
Definition fill_windowed (starting_ : list (list Z)) (num_location_types win_size : Z)
    (all_coordinates : ndarray2) (i : Z) : outcome ndarray2 :=
  row <- or_raise IndexError (py_getitem starting_ i) ;;
  a1 <- set_column all_coordinates i row ;;
  set_column a1 (i + num_location_types) (map (fun s => s + win_size) row).

(** First half of [generate_grid_coordinates]: the sampling points
    along each dimension, the windowed dimensions first and then the
    auxiliary one when the rank has a fraction. *)
Definition steps_along_each (spatial_rank : Q) (img_size : list Z)
    (win_size grid_size : Z) : outcome (list (list Z)) :=
  let num_windows := Qfloor spatial_rank in
  steps_windowed <-
    mapM (fun i =>
            d <- or_raise IndexError (py_getitem img_size i) ;;
            steps_or_diverge d win_size grid_size)
         (py_range num_windows) ;;
  if Qlt_bool (inject_Z num_windows) spatial_rank
  then
    d <- or_raise IndexError (py_getitem img_size num_windows) ;;
    steps <- steps_or_diverge d 1 1 ;;
    Return (steps_windowed ++ [steps])
  else Return steps_windowed.

(** Second half: the mesh grid and its transformation into the list
    of coordinates.  The number of columns [spatial_rank * 2] is a
    float when the rank has a fraction; it is taken without its
    fraction. *)
Definition all_coordinates (spatial_rank : Q) (win_size : Z)
    (steps : list (list Z)) : outcome ndarray2 :=
  let num_windows := Qfloor spatial_rank in
  let num_location_types := Qceiling spatial_rank in
  starting_ <- reshape_rows num_location_types (meshgrid steps) ;;
  a <- np_zeros (length (nth 0 starting_ []))
                (Qtruncate (spatial_rank * (2 # 1))) ;;
  a <- foldM (fill_windowed starting_ num_location_types win_size)
             (py_range num_windows) a ;;
  if Qlt_bool (inject_Z num_windows) spatial_rank
  then
    row <- or_raise IndexError (py_getitem starting_ num_windows) ;;
    set_column a num_windows row
  else Return a.

(** [generate_grid_coordinates]; [Return None] is Python's [None]. *)
Definition generate_grid_coordinates (spatial_rank : Q) (img_size : list Z)
    (win_size grid_size : Z) : outcome (option ndarray2) :=
  if grid_size <=? 0 then Return None
  else
    let num_windows := Qfloor spatial_rank in
    if negb (forallb (fun d => win_size <=? d) (py_slice_to img_size num_windows))
    then Raise AssertionError
    else
      steps <- steps_along_each spatial_rank img_size win_size grid_size ;;
      a <- all_coordinates spatial_rank win_size steps ;;
      Return (Some a).

(** The grid points in the order of the rows of the mesh grid: the
    second input runs slowest, then the first, then the others. *)
Definition meshgrid_points (xi : list (list Z)) : list (list Z) :=
  map swap01 (cartesian (swap01 xi)).

(** The coordinate of a grid point [p] as the spec lays it out: the
    point itself (starts, then the auxiliary index when there is one)
    followed by the ends of the windowed dimensions. *)
Definition coordinate_of_point (num_windows : nat) (win_size : Z) (p : list Z)
  : list Z :=
  p ++ map (fun s => s + win_size) (firstn num_windows p).

(** The step points of dimension [i] of the image for a given window
    and step; [None] when the image has no dimension [i]. *)
Definition dimension_steps (img_size : list Z) (win_size step_size : Z) (i : nat)
  : option (list Z) :=
  match nth_error img_size i with
  | Some d => _enumerate_step_points 0 d win_size step_size
  | None => None
  end.

Definition step_count (steps : option (list Z)) : nat :=
  match steps with
  | Some l => length l
  | None => 0%nat
  end.

(** The product of the per-dimension step-point counts: one factor per
    windowed dimension, and the count of the auxiliary dimension when
    the rank has a fraction. *)
Definition product_of_step_counts (spatial_rank : Q) (img_size : list Z)
    (win_size grid_size : Z) : nat :=
  let num_windows := Z.to_nat (Qfloor spatial_rank) in
  (fold_right Nat.mul 1%nat
     (map (fun i => step_count (dimension_steps img_size win_size grid_size i))
          (seq 0 num_windows)) *
   (if Qlt_bool (inject_Z (Qfloor spatial_rank)) spatial_rank
    then step_count (dimension_steps img_size 1 1 num_windows)
    else 1))%nat.

(** A rank with a fraction: it lies strictly above its floor. *)
Definition has_fraction (spatial_rank : Q) : Prop :=
  (inject_Z (Qfloor spatial_rank) < spatial_rank)%Q.

(** One round of the loop over the windowed dimensions, seen on the
    row of the grid point [p]. *)
Definition fill_row (nlt : nat) (win_size : Z) (p row : list Z) (i : nat) : list Z :=
  replace_nth (i + nlt) (nth i p 0 + win_size) (replace_nth i (nth i p 0) row).

(* ================================================================= *)
(** ** The grid sampler *)

(** A volume as [layer_op] sees it once the loader has produced it and
    its shape has been matched to the patch definition: [vol_shape] is
    [img.data.shape]. *)
Record volume : Type := mk_volume {
  vol_idx : nat;
  vol_shape : list Z
}.

(** The fields of a [GridSampler] that [layer_op] reads:
    [patch.spatial_rank], [patch.image_size] and [grid_size]. *)
Record GridSampler : Type := mk_GridSampler {
  patch_spatial_rank : Q;
  patch_image_size : Z;
  sampler_grid_size : Z
}.

(** One call [patch.set_data(idx, loc, img, seg, weight_map)] followed
    by a [yield]. *)
Record emission : Type := mk_emission {
  em_idx : nat;
  em_loc : list Z;
  em_volume : volume
}.

Definition extra_patches (n_patches batch_size : Z) : Z :=
  if negb (n_patches mod batch_size =? 0)
  then batch_size - n_patches mod batch_size
  else 0.

Definition extend_n_patches (n_patches batch_size : Z) : Z :=
  n_patches + extra_patches n_patches batch_size.

(** The emission loop [for i in range(0, extend_n_patches)]: what was
    yielded, and how the loop ended. *)
Fixpoint emit_loop (v : volume) (locations : list (list Z)) (n_patches : Z)
    (indices : list Z) : list emission * outcome unit :=
  match indices with
  | [] => ([], Return tt)
  | i :: rest =>
      if n_patches =? 0 then ([], Raise ZeroDivisionError)
      else
        match py_getitem locations (i mod n_patches) with
        | None => ([], Raise IndexError)
        | Some loc =>
            let (out, r) := emit_loop v locations n_patches rest in
            (mk_emission (vol_idx v) loc v :: out, r)
        end
  end.

(** The padding and the emission loop for the locations of one volume. *)
Definition emit_locations (batch_size : Z) (v : volume) (locations : ndarray2)
  : list emission * outcome unit :=
  let n_patches := Z.of_nat (shape0 locations) in
  if batch_size =? 0 then ([], Raise ZeroDivisionError)
  else
    emit_loop v (rows locations) n_patches
      (py_range (extend_n_patches n_patches batch_size)).

(** The body of the [while] loop of [layer_op] for one volume. *)
Definition sample_volume (s : GridSampler) (batch_size : Z) (v : volume)
  : list emission * outcome unit :=
  if (length (vol_shape v) =? 5)%nat then ([], Raise NotImplementedError)
  else
    match generate_grid_coordinates (patch_spatial_rank s) (vol_shape v)
            (patch_image_size s) (sampler_grid_size s) with
    | Raise e => ([], Raise e)
    | Diverge => ([], Diverge)
    | Return None => ([], Raise AttributeError)
    | Return (Some locations) => emit_locations batch_size v locations
    end.

(** [layer_op] over the volumes the loader still holds: the sequence
    of emissions, and how the generator ended. *)
Fixpoint layer_op (s : GridSampler) (batch_size : Z) (volumes : list volume)
  : list emission * outcome unit :=
  match volumes with
  | [] => ([], Return tt)
  | v :: rest =>
      match sample_volume s batch_size v with
      | (out, Return tt) =>
          let (out', r) := layer_op s batch_size rest in (out ++ out', r)
      | (out, r) => (out, r)
      end
  end.

(* ================================================================= *)
(** ** Closed forms *)

(** The step points of a dimension in closed form, for the calls of
    the generator (start at zero, positive step, window within the
    extent): the multiples of the step up to [extent - win_size], and
    [extent - win_size] itself when it is not one of them. *)
Definition step_points_from_zero (extent win_size step_size : Z) : list Z :=
  let last := extent - win_size in
  map (fun j => Z.of_nat j * step_size)
      (seq 0 (Z.to_nat (last / step_size) + 1)) ++
  (if last mod step_size =? 0 then [] else [last]).

(* ================================================================= *)
(** ** The partition table of [file_image_sets_partitioner.py] *)

Module Partitioner.
Import Stdlib.Strings.String.

(** A cell of a data frame read with [dtype=str]: a string, or [None]
    for a missing value. *)
Definition cell : Type := option string.

Definition cell_eqb (a b : cell) : bool :=
  match a, b with
  | Some x, Some y => String.eqb x y
  | None, None => true
  | _, _ => false
  end.

(** A row of [_file_list]: the subject identifier and the file names
    of the input sections. *)
Record file_row : Type := mk_file_row {
  file_subject_id : cell;
  file_names : list cell
}.

(** A row of [_partition_ids]: the subject identifier and its phase. *)
Record partition_row : Type := mk_partition_row {
  partition_subject_id : cell;
  partition_phase : cell
}.

(** The two tables of a [FileImageSetsPartitioner]; [None] is a table
    that has not been set. *)
Record partitioner : Type := mk_partitioner {
  _file_list : option (list file_row);
  _partition_ids : option (list partition_row)
}.

(** [pandas.merge(left, right, on=COLUMN_UNIQ_ID)]: the pairs of a left
    and a right row that have the same identifier (two missing
    identifiers match). *)
Definition merge_on_id (left : list file_row) (right : list cell)
  : list (file_row * cell) :=
  flat_map (fun l =>
              map (fun r => (l, r))
                  (filter (fun r => cell_eqb (file_subject_id l) r) right))
           left.

(** The result of [has_phase]: a boolean, or the exception that
    [pandas.merge] raises on a left table that is [None]. *)
Inductive has_phase_result : Type :=
| Answer (b : bool)
| MergeRaises.

(** [has_phase]; a missing phase is equal to no phase. *)
Definition has_phase (self : partitioner) (phase : string) : has_phase_result :=
  match _partition_ids self with
  | None => Answer false
  | Some ids =>
      if (List.length ids =? 0)%nat then Answer false
      else
        let selector :=
          map (fun r => cell_eqb (partition_phase r) (Some phase)) ids in
        if negb (existsb (fun b => b) selector) then Answer false
        else
          let selected :=
            map partition_subject_id
                (filter (fun r => cell_eqb (partition_phase r) (Some phase)) ids) in
          match _file_list self with
          | None => MergeRaises
          | Some files =>
              Answer (negb ((List.length (merge_on_id files selected) =? 0)%nat))
          end
  end.

End Partitioner.

(* ================================================================= *)
(** ** Facts on [np_unique] *)

Section UniqueFacts.

Lemma insert_unique_In x y l : In y (insert_unique x l) <-> y = x \/ In y l.
Proof.
  induction l as [|z t IH]; simpl.
  - intuition.
  - destruct (x <? z) eqn:Hlt; [simpl; intuition|].
    destruct (x =? z) eqn:Heq.
    + apply Z.eqb_eq in Heq. subst z. simpl. intuition.
    + simpl. rewrite IH. intuition.
Qed.

Lemma insert_unique_lower x b l :
  b < x -> Forall (Z.lt b) l -> Forall (Z.lt b) (insert_unique x l).
Proof.
  intros Hb Hl. apply Forall_forall. intros y Hy.
  apply insert_unique_In in Hy. destruct Hy as [->|Hy]; [exact Hb|].
  rewrite Forall_forall in Hl. now apply Hl.
Qed.

Lemma insert_unique_sorted x l :
  StronglySorted Z.lt l -> StronglySorted Z.lt (insert_unique x l).
Proof.
  induction 1 as [|z t Hs IH Hall]; simpl.
  - repeat constructor.
  - destruct (x <? z) eqn:Hlt.
    + apply Z.ltb_lt in Hlt. constructor.
      * now constructor.
      * constructor; [exact Hlt|].
        eapply Forall_impl; [|exact Hall]. intros; lia.
    + destruct (x =? z) eqn:Heq.
      * now constructor.
      * apply Z.ltb_ge in Hlt. apply Z.eqb_neq in Heq.
        constructor; [exact IH|].
        apply insert_unique_lower; [lia|exact Hall].
Qed.

Lemma np_unique_In x l : In x (np_unique l) <-> In x l.
Proof.
  induction l as [|y t IH]; simpl; [tauto|].
  rewrite insert_unique_In, IH. intuition.
Qed.

Lemma np_unique_sorted l : StronglySorted Z.lt (np_unique l).
Proof.
  induction l as [|y t IH]; simpl.
  - constructor.
  - now apply insert_unique_sorted.
Qed.

Lemma np_unique_nonempty l : l <> [] -> np_unique l <> [].
Proof.
  destruct l as [|y t]; [congruence|]. intros _ Hnil.
  assert (Hin : In y (np_unique (y :: t))) by (apply np_unique_In; now left).
  rewrite Hnil in Hin. exact Hin.
Qed.

End UniqueFacts.

(* ================================================================= *)
(** ** Facts on the sampling loop *)

Module StepPointsFacts.
Import StepPoints.

(** What the loop has recorded when it stops: the points
    [starting + j * step_size] for [j] below the first round [k] at
    which the condition fails. *)
Lemma sampling_loop_stops fuel : forall s e w st acc r,
  sampling_loop fuel s e w st acc = Some r ->
  exists k : nat,
    (forall x, In x r <->
               In x acc \/ exists j : nat, (j < k)%nat /\ x = s + Z.of_nat j * st) /\
    (forall j : nat, (j < k)%nat -> s + Z.of_nat j * st + w <= e) /\
    e < s + Z.of_nat k * st + w.
Proof.
  induction fuel as [|fuel IH]; intros s e w st acc r H; simpl in H; [discriminate|].
  destruct (s + w <=? e) eqn:Hc.
  - apply Z.leb_le in Hc. apply IH in H. destruct H as (k & Hin & Hall & Hstop).
    exists (S k). repeat split.
    + intros Hx. apply Hin in Hx. rewrite in_app_iff in Hx. simpl in Hx.
      destruct Hx as [[Hx|[Hx|[]]]|(j & Hj & Hx)].
      * now left.
      * right. exists O. split; [lia|]. simpl. lia.
      * right. exists (S j). split; [lia|]. lia.
    + intros [Hx|(j & Hj & Hx)]; apply Hin.
      * left. apply in_app_iff. now left.
      * destruct j as [|j].
        -- left. apply in_app_iff. right. simpl. left. simpl in Hx. lia.
        -- right. exists j. split; [lia|]. lia.
    + intros [|j] Hj; [simpl; lia|].
      specialize (Hall j ltac:(lia)). lia.
    + lia.
  - apply Z.leb_gt in Hc. injection H as <-. exists O. repeat split.
    + intros Hx. now left.
    + intros [Hx|(j & Hj & _)]; [exact Hx|lia].
    + intros j Hj. lia.
    + simpl. lia.
Qed.

(** More fuel does not change the result of a loop that stopped. *)
Lemma sampling_loop_more_fuel fuel : forall fuel' s e w st acc r,
  (fuel <= fuel')%nat ->
  sampling_loop fuel s e w st acc = Some r ->
  sampling_loop fuel' s e w st acc = Some r.
Proof.
  induction fuel as [|fuel IH]; intros fuel' s e w st acc r Hle H; [discriminate|].
  destruct fuel' as [|fuel']; [lia|]. simpl in *.
  destruct (s + w <=? e); [|exact H].
  apply IH; [lia|exact H].
Qed.

(** With a positive step the loop stops within [loop_bound] rounds. *)
Lemma sampling_loop_terminates fuel : forall s e w st acc,
  0 < st ->
  (Z.to_nat (e - w - s + 1) < fuel)%nat ->
  exists r, sampling_loop fuel s e w st acc = Some r.
Proof.
  induction fuel as [|fuel IH]; intros s e w st acc Hst Hf; [lia|]. simpl.
  destruct (s + w <=? e) eqn:Hc.
  - apply Z.leb_le in Hc. apply IH; [exact Hst|]. lia.
  - eauto.
Qed.

(** With a step that is not positive, a loop whose condition holds
    once holds it for ever. *)
Lemma sampling_loop_diverges fuel : forall s e w st acc,
  st <= 0 -> s + w <= e ->
  sampling_loop fuel s e w st acc = None.
Proof.
  induction fuel as [|fuel IH]; intros s e w st acc Hst Hc; [reflexivity|]. simpl.
  destruct (s + w <=? e) eqn:Hb.
  - apply IH; lia.
  - apply Z.leb_gt in Hb. lia.
Qed.

(** [None] is a loop that never stops, whatever the fuel. *)
Lemma enumerate_None_diverges s e w st :
  _enumerate_step_points s e w st = None ->
  forall fuel, sampling_loop fuel s e w st [] = None.
Proof.
  unfold _enumerate_step_points. intros H fuel.
  destruct (sampling_loop (loop_bound s e w) s e w st []) eqn:Hl; [discriminate|].
  destruct (Z_lt_le_dec 0 st) as [Hst|Hst].
  - destruct (sampling_loop_terminates (loop_bound s e w) s e w st [] Hst) as [r Hr].
    + unfold loop_bound. lia.
    + congruence.
  - destruct (Z_le_gt_dec (s + w) e) as [Hc|Hc].
    + now apply sampling_loop_diverges.
    + unfold loop_bound in Hl. simpl in Hl.
      destruct (s + w <=? e) eqn:Hb; [apply Z.leb_le in Hb; lia|discriminate].
Qed.

(** The result of [_enumerate_step_points] is the result of the loop
    at any fuel that lets it stop. *)
Lemma enumerate_adequate fuel s e w st acc :
  sampling_loop fuel s e w st [] = Some acc ->
  _enumerate_step_points s e w st = Some (np_unique (acc ++ [Z.max (e - w) 0])).
Proof.
  intros H. unfold _enumerate_step_points.
  destruct (sampling_loop (loop_bound s e w) s e w st []) as [acc'|] eqn:Hl.
  - assert (H1 := sampling_loop_more_fuel _ (Nat.max fuel (loop_bound s e w))
                    _ _ _ _ _ _ (Nat.le_max_l _ _) H).
    assert (H2 := sampling_loop_more_fuel _ (Nat.max fuel (loop_bound s e w))
                    _ _ _ _ _ _ (Nat.le_max_r _ _) Hl).
    congruence.
  - assert (Hn : _enumerate_step_points s e w st = None).
    { unfold _enumerate_step_points. now rewrite Hl. }
    rewrite (enumerate_None_diverges _ _ _ _ Hn fuel) in H. discriminate.
Qed.

Lemma enumerate_terminates s e w st :
  0 < st \/ e < s + w ->
  exists l, _enumerate_step_points s e w st = Some l.
Proof.
  intros H. destruct (_enumerate_step_points s e w st) as [l|] eqn:He; [eauto|].
  assert (Hd := enumerate_None_diverges _ _ _ _ He). exfalso.
  destruct H as [Hst|Hc].
  - destruct (sampling_loop_terminates (loop_bound s e w) s e w st [] Hst) as [r Hr].
    + unfold loop_bound. lia.
    + rewrite Hd in Hr. discriminate.
  - specialize (Hd 1%nat). simpl in Hd.
    destruct (s + w <=? e) eqn:Hb; [apply Z.leb_le in Hb; lia|discriminate].
Qed.

(** Membership in the returned array. *)
Lemma enumerate_In s e w st l :
  _enumerate_step_points s e w st = Some l ->
  forall x, In x l <-> recorded_by_loop s e w st x \/ x = Z.max (e - w) 0.
Proof.
  unfold _enumerate_step_points. intros H x.
  destruct (sampling_loop (loop_bound s e w) s e w st []) as [acc|] eqn:Hl;
    [|discriminate].
  injection H as <-. rewrite np_unique_In, in_app_iff. simpl.
  apply sampling_loop_stops in Hl. destruct Hl as (k & Hin & Hall & Hstop).
  rewrite Hin. unfold recorded_by_loop. split.
  - intros [[[]|(j & Hj & Hx)]|[Hx|[]]]; [|now right].
    left. exists j. split; [exact Hx|]. intros i Hi. apply Hall. lia.
  - intros [(j & Hx & Hj)|Hx]; [|right; left; now symmetry].
    left. right. exists j. split; [|exact Hx].
    destruct (Nat.lt_ge_cases j k) as [Hlt|Hge]; [exact Hlt|].
    specialize (Hj k Hge). lia.
Qed.

Lemma enumerate_nonempty s e w st l :
  _enumerate_step_points s e w st = Some l -> l <> [].
Proof.
  intros H Hnil. subst l.
  apply (proj2 (enumerate_In _ _ _ _ _ H (Z.max (e - w) 0))). now right.
Qed.

Lemma enumerate_sorted s e w st l :
  _enumerate_step_points s e w st = Some l -> StronglySorted Z.lt l.
Proof.
  unfold _enumerate_step_points. intros H.
  destruct (sampling_loop (loop_bound s e w) s e w st []); [|discriminate].
  injection H as <-. apply np_unique_sorted.
Qed.

End StepPointsFacts.

(* ================================================================= *)
(** ** Facts on lists and arrays *)

Section ArrayFacts.

Lemma replace_nth_length k v row : length (replace_nth k v row) = length row.
Proof.
  revert k. induction row as [|x t IH]; intros [|k]; simpl; auto.
Qed.

Lemma nth_replace_nth c k v row :
  nth c (replace_nth k v row) 0 =
  if ((c =? k)%nat && (k <? length row)%nat)%bool then v else nth c row 0.
Proof.
  revert c k. induction row as [|x t IH]; intros c k.
  - destruct k; simpl; destruct c; simpl; rewrite ?andb_false_r; reflexivity.
  - destruct k as [|k]; destruct c as [|c]; simpl; try reflexivity.
    rewrite IH. reflexivity.
Qed.

Lemma combine_map_same {A B C : Type} (g : A -> B) (h : A -> C) (l : list A) :
  combine (map g l) (map h l) = map (fun x => (g x, h x)) l.
Proof.
  induction l as [|a t IH]; simpl; [reflexivity|]. now rewrite IH.
Qed.

Lemma chunks_concat n (ls : list (list Z)) :
  Forall (fun l => length l = n) ls ->
  chunks n (length ls) (concat ls) = ls.
Proof.
  induction 1 as [|l t Hl _ IH]; simpl; [reflexivity|].
  rewrite firstn_app, skipn_app, Hl, Nat.sub_diag, firstn_all2, skipn_all2 by lia.
  simpl. rewrite app_nil_r. now rewrite IH.
Qed.

Lemma length_concat_same n (ls : list (list Z)) :
  Forall (fun l => length l = n) ls ->
  length (concat ls) = (length ls * n)%nat.
Proof.
  induction 1 as [|l t Hl _ IH]; simpl; [reflexivity|].
  rewrite length_app, IH, Hl. reflexivity.
Qed.

Lemma swap01_length {A : Type} (l : list A) : length (swap01 l) = length l.
Proof. destruct l as [|a [|b t]]; reflexivity. Qed.

Lemma swap01_involutive {A : Type} (l : list A) : swap01 (swap01 l) = l.
Proof. destruct l as [|a [|b t]]; reflexivity. Qed.

Lemma cartesian_point_length axes p :
  In p (cartesian axes) -> length p = length axes.
Proof.
  revert p. induction axes as [|xs rest IH]; intros p Hp; simpl in *.
  - destruct Hp as [<-|[]]. reflexivity.
  - apply in_flat_map in Hp. destruct Hp as (x & _ & Hp).
    apply in_map_iff in Hp. destruct Hp as (q & <- & Hq).
    simpl. now rewrite (IH q Hq).
Qed.

(** A grid point holds one value of each input, in the order of the
    inputs. *)
Lemma cartesian_In axes p :
  In p (cartesian axes) <-> Forall2 (fun x xs => In x xs) p axes.
Proof.
  revert p. induction axes as [|xs rest IH]; intros p; simpl.
  - split.
    + intros [<-|[]]. constructor.
    + intros H. inversion H. now left.
  - rewrite in_flat_map. split.
    + intros (x & Hx & Hp). apply in_map_iff in Hp. destruct Hp as (q & <- & Hq).
      constructor; [exact Hx|]. now apply IH.
    + intros H. inversion H as [|x xs' q rest' Hx Hq]; subst.
      exists x. split; [exact Hx|]. apply in_map. now apply IH.
Qed.

Lemma length_flat_map_const {A B : Type} (f : A -> list B) n (l : list A) :
  (forall a, length (f a) = n) -> length (flat_map f l) = (length l * n)%nat.
Proof.
  intros Hf. induction l as [|a t IH]; simpl; [reflexivity|].
  now rewrite length_app, IH, Hf.
Qed.

Lemma cartesian_length axes :
  length (cartesian axes) = fold_right Nat.mul 1%nat (map (@length Z) axes).
Proof.
  induction axes as [|xs rest IH]; simpl; [reflexivity|].
  rewrite (length_flat_map_const _ (length (cartesian rest))).
  - now rewrite IH.
  - intros a. now rewrite length_map.
Qed.

Lemma meshgrid_points_length xi :
  length (meshgrid_points xi) = fold_right Nat.mul 1%nat (map (@length Z) xi).
Proof.
  unfold meshgrid_points. rewrite length_map, cartesian_length.
  destruct xi as [|a [|b t]]; simpl; try reflexivity. lia.
Qed.

Lemma meshgrid_points_point_length xi p :
  In p (meshgrid_points xi) -> length p = length xi.
Proof.
  unfold meshgrid_points. intros Hp. apply in_map_iff in Hp.
  destruct Hp as (q & <- & Hq). apply cartesian_point_length in Hq.
  now rewrite swap01_length, Hq, swap01_length.
Qed.

Lemma Forall2_swap01 {A B : Type} (R : A -> B -> Prop) l l' :
  Forall2 R l l' -> Forall2 R (swap01 l) (swap01 l').
Proof.
  intros H. destruct H as [|a b l l' Hab H]; simpl; [constructor|].
  destruct H as [|a' b' l l' Hab' H]; simpl; repeat constructor; assumption.
Qed.

Lemma meshgrid_points_In xi p :
  In p (meshgrid_points xi) <-> Forall2 (fun x xs => In x xs) p xi.
Proof.
  unfold meshgrid_points. rewrite in_map_iff. split.
  - intros (q & <- & Hq). apply cartesian_In in Hq.
    apply Forall2_swap01 in Hq. now rewrite swap01_involutive in Hq.
  - intros H. exists (swap01 p). split; [apply swap01_involutive|].
    apply cartesian_In. now apply Forall2_swap01.
Qed.

(** The array of input [d] in the mesh grid, read on the grid points. *)
Lemma meshgrid_as_points xi :
  meshgrid xi =
  map (fun d => map (fun p => nth d p 0) (meshgrid_points xi)) (seq 0 (length xi)).
Proof.
  unfold meshgrid, meshgrid_points. apply map_ext. intros d.
  now rewrite map_map.
Qed.

Lemma meshgrid_length xi : length (meshgrid xi) = length xi.
Proof. unfold meshgrid. now rewrite length_map, length_seq. Qed.

Lemma meshgrid_nth xi d :
  (d < length xi)%nat ->
  nth_error (meshgrid xi) d = Some (map (fun p => nth d p 0) (meshgrid_points xi)).
Proof.
  intros Hd. rewrite meshgrid_as_points.
  rewrite nth_error_map, nth_error_seq.
  destruct (Nat.ltb_spec d (length xi)); [reflexivity|lia].
Qed.

Lemma reshape_meshgrid n xi :
  Z.of_nat (length xi) = n -> 1 <= n ->
  reshape_rows n (meshgrid xi) = Return (meshgrid xi).
Proof.
  intros Hn Hpos. unfold reshape_rows.
  assert (Hall : Forall (fun l => length l = length (meshgrid_points xi)) (meshgrid xi)).
  { rewrite meshgrid_as_points. apply Forall_forall. intros l Hl.
    apply in_map_iff in Hl. destruct Hl as (d & <- & _). now rewrite length_map. }
  rewrite (length_concat_same _ _ Hall), meshgrid_length.
  destruct (n <=? 0) eqn:Hn0; [apply Z.leb_le in Hn0; lia|].
  rewrite Nat2Z.inj_mul, Hn, Z.mul_comm, Z.mod_mul by lia.
  simpl. rewrite Z.div_mul by lia. rewrite Nat2Z.id. subst n.
  rewrite Nat2Z.id. rewrite <- (meshgrid_length xi) at 1.
  now rewrite chunks_concat.
Qed.

End ArrayFacts.

(* ================================================================= *)
(** ** Facts on the floor, the ceiling and the doubling of a rank *)

Section RankFacts.

Lemma Qrank_unfold (n : Z) (d : positive) :
  Qfloor (n # d) = n / Zpos d /\
  Qceiling (n # d) = - ((- n) / Zpos d) /\
  Qtruncate ((n # d) * (2 # 1)) =
    (if 0 <=? n * 2 then (n * 2) / Zpos d else - ((- (n * 2)) / Zpos d)) /\
  Qlt_bool (inject_Z (n / Zpos d)) (n # d) = negb (n <=? (n / Zpos d) * Zpos d).
Proof.
  unfold Qtruncate, Qlt_bool, Qceiling, Qfloor, Qle_bool, Qmult, Qopp, inject_Z. simpl.
  rewrite ?Pos.mul_1_r, ?Z.mul_1_r. repeat split.
Qed.

Lemma Qceiling_cases r :
  (Qlt_bool (inject_Z (Qfloor r)) r = true /\ Qceiling r = Qfloor r + 1) \/
  (Qlt_bool (inject_Z (Qfloor r)) r = false /\ Qceiling r = Qfloor r).
Proof.
  destruct r as [n d]. destruct (Qrank_unfold n d) as (Hf & Hc & _ & Hl).
  rewrite Hf, Hc, Hl. clear.
  assert (Hd : 0 < Zpos d) by lia. set (D := Zpos d) in *. clearbody D.
  destruct (n <=? n / D * D) eqn:Hle; simpl.
  - right. split; [reflexivity|]. apply Z.leb_le in Hle.
    Z.to_euclidean_division_equations. nia.
  - left. split; [reflexivity|]. apply Z.leb_gt in Hle.
    Z.to_euclidean_division_equations. nia.
Qed.

Lemma Qtruncate_double_le r :
  0 <= Qfloor r -> Qtruncate (r * (2 # 1)) <= Qfloor r + Qceiling r.
Proof.
  destruct r as [n d]. destruct (Qrank_unfold n d) as (Hf & Hc & Ht & _).
  rewrite Hf, Hc, Ht. clear.
  assert (Hd : 0 < Zpos d) by lia. set (D := Zpos d) in *. clearbody D.
  intros H0. destruct (0 <=? n * 2) eqn:Hn.
  - Z.to_euclidean_division_equations. nia.
  - apply Z.leb_gt in Hn. Z.to_euclidean_division_equations. nia.
Qed.

Lemma Qtruncate_double_nonneg r :
  0 <= Qfloor r -> 0 <= Qtruncate (r * (2 # 1)).
Proof.
  destruct r as [n d]. destruct (Qrank_unfold n d) as (Hf & Hc & Ht & _).
  rewrite Hf, Ht. clear.
  assert (Hd : 0 < Zpos d) by lia. set (D := Zpos d) in *. clearbody D.
  intros H0. destruct (0 <=? n * 2) eqn:Hn.
  - Z.to_euclidean_division_equations. nia.
  - apply Z.leb_gt in Hn. Z.to_euclidean_division_equations. nia.
Qed.

Lemma Qfloor_le_ceiling r : Qfloor r <= Qceiling r.
Proof. destruct (Qceiling_cases r) as [[_ H]|[_ H]]; lia. Qed.

End RankFacts.

(* ================================================================= *)
(** ** Filling the coordinate array *)

Section FillFacts.

Lemma set_column_map {A : Type} (pts : list A) (g : A -> list Z) (h : A -> Z)
    (C c : nat) :
  (c < C)%nat ->
  set_column (mk_ndarray2 C (map g pts)) (Z.of_nat c) (map h pts) =
  Return (mk_ndarray2 C (map (fun p => replace_nth c (h p) (g p)) pts)).
Proof.
  intros Hc. unfold set_column. simpl.
  destruct (Z.of_nat c <? - Z.of_nat C) eqn:H1; [apply Z.ltb_lt in H1; lia|].
  destruct (Z.of_nat C <=? Z.of_nat c) eqn:H2; [apply Z.leb_le in H2; lia|].
  simpl. destruct (Z.of_nat c <? 0) eqn:H3; [apply Z.ltb_lt in H3; lia|].
  rewrite Nat2Z.id, combine_map_same, map_map. reflexivity.
Qed.

Lemma set_column_inv a c values a' :
  set_column a c values = Return a' ->
  - Z.of_nat (shape1 a) <= c < Z.of_nat (shape1 a) /\ shape1 a' = shape1 a.
Proof.
  unfold set_column. intros H.
  destruct (c <? - Z.of_nat (shape1 a)) eqn:H1; [discriminate|].
  destruct (Z.of_nat (shape1 a) <=? c) eqn:H2; [discriminate|].
  simpl in H. injection H as <-. simpl.
  apply Z.ltb_ge in H1. apply Z.leb_gt in H2. lia.
Qed.

Lemma fill_windowed_map xi n win_size C (g : list Z -> list Z) i :
  (i < length xi)%nat -> (i + n < C)%nat ->
  fill_windowed (meshgrid xi) (Z.of_nat n) win_size
    (mk_ndarray2 C (map g (meshgrid_points xi))) (Z.of_nat i) =
  Return (mk_ndarray2 C
            (map (fun p => fill_row n win_size p (g p) i) (meshgrid_points xi))).
Proof.
  intros Hi Hc. unfold fill_windowed, py_getitem.
  destruct (Z.of_nat i <? 0) eqn:H0; [apply Z.ltb_lt in H0; lia|].
  rewrite Nat2Z.id, (meshgrid_nth _ _ Hi). simpl.
  rewrite set_column_map by lia. simpl.
  rewrite map_map, <- Nat2Z.inj_add.
  rewrite (set_column_map (meshgrid_points xi)
             (fun p => replace_nth i (nth i p 0) (g p))
             (fun p => nth i p 0 + win_size)) by lia.
  reflexivity.
Qed.

Lemma foldM_fill_windowed xi n win_size C m : forall k (g : list Z -> list Z),
  (k + m <= length xi)%nat -> (m = 0 \/ k + m + n <= C)%nat ->
  foldM (fill_windowed (meshgrid xi) (Z.of_nat n) win_size)
        (map Z.of_nat (seq k m))
        (mk_ndarray2 C (map g (meshgrid_points xi))) =
  Return (mk_ndarray2 C
            (map (fun p => fold_left (fill_row n win_size p) (seq k m) (g p))
                 (meshgrid_points xi))).
Proof.
  induction m as [|m IH]; intros k g Hk HC; simpl.
  - reflexivity.
  - rewrite fill_windowed_map by lia. simpl.
    rewrite (IH (S k) (fun p => fill_row n win_size p (g p) k)) by lia.
    reflexivity.
Qed.

(** A failure of the loop: the last windowed dimension writes its end
    column past the last column. *)
Lemma foldM_fill_windowed_shape starting_ nlt win_size l : forall a a',
  foldM (fill_windowed starting_ nlt win_size) l a = Return a' ->
  shape1 a' = shape1 a /\
  forall i, In i l ->
    - Z.of_nat (shape1 a) <= i + nlt < Z.of_nat (shape1 a).
Proof.
  induction l as [|i l IH]; intros a a' H; simpl in H.
  - injection H as <-. split; [reflexivity|]. intros i [].
  - destruct (fill_windowed starting_ nlt win_size a i) as [a1| |] eqn:Hf;
      simpl in H; try discriminate.
    unfold fill_windowed in Hf.
    destruct (or_raise IndexError (py_getitem starting_ i)) as [row| |];
      simpl in Hf; try discriminate.
    destruct (set_column a i row) as [a0| |] eqn:H0; simpl in Hf; try discriminate.
    apply set_column_inv in H0. apply set_column_inv in Hf.
    apply IH in H. destruct H as [Hs Hall].
    split; [lia|]. intros j [<-|Hj]; [lia|].
    specialize (Hall j Hj). lia.
Qed.

Lemma fill_rows_length n win_size p C k :
  length (fold_left (fill_row n win_size p) (seq 0 k) (repeat 0 C)) = C.
Proof.
  induction k as [|k IHk]; [apply repeat_length|].
  rewrite seq_S, fold_left_app. simpl. unfold fill_row at 1.
  now rewrite !replace_nth_length.
Qed.

Lemma nth_fill_rows n win_size p C k : forall c,
  (k + n <= C)%nat \/ k = 0%nat -> (k <= n)%nat ->
  nth c (fold_left (fill_row n win_size p) (seq 0 k) (repeat 0 C)) 0 =
  if (c <? k)%nat then nth c p 0
  else if ((n <=? c)%nat && (c <? n + k)%nat)%bool then nth (c - n) p 0 + win_size
  else 0.
Proof.
  induction k as [|k IH]; intros c HC Hn.
  - simpl. rewrite nth_repeat.
    destruct (n <=? c)%nat eqn:H1; simpl; [|reflexivity].
    destruct (c <? n + 0)%nat eqn:H2; [|reflexivity].
    apply Nat.leb_le in H1. apply Nat.ltb_lt in H2. lia.
  - rewrite seq_S, fold_left_app. simpl. unfold fill_row at 1.
    rewrite !nth_replace_nth, replace_nth_length, fill_rows_length, IH by lia.
    destruct (Nat.eqb_spec c (k + n)) as [->|Hne1].
    + destruct (Nat.ltb_spec (k + n) C); [|lia]. simpl.
      destruct (Nat.ltb_spec (k + n) (S k)); [lia|].
      destruct (Nat.leb_spec n (k + n)); [|lia].
      destruct (Nat.ltb_spec (k + n) (n + S k)); [|lia]. simpl.
      replace (k + n - n)%nat with k by lia. reflexivity.
    + simpl. destruct (Nat.eqb_spec c k) as [->|Hne2].
      * destruct (Nat.ltb_spec k C); [|lia]. simpl.
        destruct (Nat.ltb_spec k (S k)); [reflexivity|lia].
      * simpl.
        destruct (Nat.ltb_spec c k), (Nat.ltb_spec c (S k)); try lia; try reflexivity.
        destruct (Nat.leb_spec n c); simpl; [|reflexivity].
        destruct (Nat.ltb_spec c (n + k)), (Nat.ltb_spec c (n + S k));
          try lia; reflexivity.
Qed.

End FillFacts.

(* ================================================================= *)
(** ** The coordinate array in closed form *)

Section CoordinateFacts.

Lemma py_range_nat n : py_range (Z.of_nat n) = map Z.of_nat (seq 0 n).
Proof. unfold py_range. now rewrite Nat2Z.id. Qed.

Lemma repeat_as_map {A B : Type} (x : B) (l : list A) :
  repeat x (length l) = map (fun _ => x) l.
Proof. induction l as [|a t IH]; simpl; [reflexivity|]. now rewrite IH. Qed.

Lemma nth_map_in (f : Z -> Z) (l : list Z) n :
  (n < length l)%nat -> nth n (map f l) 0 = f (nth n l 0).
Proof.
  revert n. induction l as [|x t IH]; intros [|n] Hn; simpl in *; try lia.
  apply IH. lia.
Qed.

(** The row that the two loops leave for the grid point [p] is the
    coordinate of [p]. *)
Lemma filled_row_is_coordinate nw D win_size p (aux : bool) :
  length p = D -> D = (if aux then S nw else nw) ->
  (if aux
   then replace_nth nw (nth nw p 0)
          (fold_left (fill_row D win_size p) (seq 0 nw) (repeat 0 (nw + D)))
   else fold_left (fill_row D win_size p) (seq 0 nw) (repeat 0 (nw + D))) =
  coordinate_of_point nw win_size p.
Proof.
  intros Hp HD. unfold coordinate_of_point.
  assert (Hlen : length (p ++ map (fun s => s + win_size) (firstn nw p)) = (nw + D)%nat).
  { rewrite length_app, length_map, length_firstn. destruct aux; lia. }
  apply nth_ext with (d := 0) (d' := 0).
  - rewrite Hlen. destruct aux; rewrite ?replace_nth_length; apply fill_rows_length.
  - intros c Hc.
    assert (Hc' : (c < nw + D)%nat).
    { destruct aux; rewrite ?replace_nth_length, fill_rows_length in Hc; exact Hc. }
    clear Hc.
    assert (Hrhs : nth c (p ++ map (fun s => s + win_size) (firstn nw p)) 0 =
                   if (c <? D)%nat then nth c p 0 else nth (c - D) p 0 + win_size).
    { destruct (Nat.ltb_spec c D).
      - apply app_nth1. lia.
      - rewrite app_nth2 by lia. rewrite Hp.
        rewrite nth_map_in by (rewrite length_firstn; destruct aux; lia).
        rewrite nth_firstn.
        destruct (Nat.ltb_spec (c - D) nw); [reflexivity|destruct aux; lia]. }
    rewrite Hrhs. destruct aux.
    + rewrite nth_replace_nth, fill_rows_length, nth_fill_rows by lia.
      destruct (Nat.eqb_spec c nw) as [->|Hne]; simpl.
      * destruct (Nat.ltb_spec nw (nw + D)); [|lia].
        destruct (Nat.ltb_spec nw D); [reflexivity|lia].
      * destruct (Nat.ltb_spec c nw), (Nat.ltb_spec c D); try lia; try reflexivity.
        destruct (Nat.leb_spec D c); [|lia].
        destruct (Nat.ltb_spec c (D + nw)); [reflexivity|lia].
    + rewrite nth_fill_rows by lia.
      destruct (Nat.ltb_spec c nw), (Nat.ltb_spec c D); try lia; try reflexivity.
      destruct (Nat.leb_spec D c); [|lia].
      destruct (Nat.ltb_spec c (D + nw)); [reflexivity|lia].
Qed.

Lemma all_coordinates_returns spatial_rank win_size xi :
  Z.of_nat (length xi) = Qceiling spatial_rank ->
  1 <= Qceiling spatial_rank ->
  Qfloor spatial_rank + Qceiling spatial_rank <= Qtruncate (spatial_rank * (2 # 1)) ->
  all_coordinates spatial_rank win_size xi =
  Return (mk_ndarray2 (Z.to_nat (Qtruncate (spatial_rank * (2 # 1))))
            (map (coordinate_of_point (Z.to_nat (Qfloor spatial_rank)) win_size)
                 (meshgrid_points xi))).
Proof.
  intros Hlen Hpos Hfit.
  assert (H0 : 0 <= Qfloor spatial_rank)
    by (destruct (Qceiling_cases spatial_rank) as [[_ H]|[_ H]]; lia).
  assert (Hle := Qtruncate_double_le _ H0).
  assert (Hfc := Qfloor_le_ceiling spatial_rank).
  set (nw := Z.to_nat (Qfloor spatial_rank)).
  assert (Hnw : Qfloor spatial_rank = Z.of_nat nw) by (unfold nw; lia).
  clearbody nw.
  assert (HC : Z.to_nat (Qtruncate (spatial_rank * (2 # 1))) = (nw + length xi)%nat).
  { lia. }
  unfold all_coordinates. rewrite reshape_meshgrid by assumption. simpl.
  assert (Hn0 : nth 0 (meshgrid xi) [] = map (fun p => nth 0%nat p 0) (meshgrid_points xi)).
  { apply nth_error_nth. apply meshgrid_nth. lia. }
  rewrite Hn0, length_map. unfold np_zeros.
  destruct (Qtruncate (spatial_rank * (2 # 1)) <? 0) eqn:Hneg;
    [apply Z.ltb_lt in Hneg; lia|].
  simpl. rewrite HC, repeat_as_map, Hnw, py_range_nat, <- Hlen.
  rewrite (foldM_fill_windowed xi (length xi) win_size (nw + length xi) nw 0%nat
             (fun _ => repeat 0 (nw + length xi))) by lia.
  simpl. rewrite <- Hnw.
  destruct (Qceiling_cases spatial_rank) as [[Hb Hc]|[Hb Hc]]; rewrite Hb.
  - unfold py_getitem. rewrite Hnw.
    destruct (Z.of_nat nw <? 0) eqn:Hn; [apply Z.ltb_lt in Hn; lia|].
    rewrite Nat2Z.id, meshgrid_nth by lia. simpl.
    rewrite set_column_map by lia. f_equal. f_equal.
    apply map_ext_in. intros p Hp. apply meshgrid_points_point_length in Hp.
    apply (filled_row_is_coordinate nw (length xi) win_size p true); lia.
  - f_equal. f_equal.
    apply map_ext_in. intros p Hp. apply meshgrid_points_point_length in Hp.
    apply (filled_row_is_coordinate nw (length xi) win_size p false); lia.
Qed.

Lemma all_coordinates_inv spatial_rank win_size xi a :
  Z.of_nat (length xi) = Qceiling spatial_rank \/ Qceiling spatial_rank <= 0 ->
  all_coordinates spatial_rank win_size xi = Return a ->
  Z.of_nat (length xi) = Qceiling spatial_rank /\
  1 <= Qceiling spatial_rank /\
  Qfloor spatial_rank + Qceiling spatial_rank <= Qtruncate (spatial_rank * (2 # 1)).
Proof.
  intros Hlen H. unfold all_coordinates in H.
  assert (Hpos : 1 <= Qceiling spatial_rank).
  { unfold reshape_rows in H.
    destruct (Qceiling spatial_rank <=? 0) eqn:Hc; [discriminate|].
    apply Z.leb_gt in Hc. lia. }
  destruct Hlen as [Hlen|Hlen]; [|lia].
  split; [exact Hlen|]. split; [exact Hpos|].
  assert (H0 : 0 <= Qfloor spatial_rank)
    by (destruct (Qceiling_cases spatial_rank) as [[_ Hx]|[_ Hx]]; lia).
  assert (Hnn := Qtruncate_double_nonneg _ H0).
  rewrite reshape_meshgrid in H by assumption. simpl in H.
  unfold np_zeros in H.
  destruct (Qtruncate (spatial_rank * (2 # 1)) <? 0) eqn:Hneg;
    [apply Z.ltb_lt in Hneg; lia|].
  simpl in H.
  match type of H with
  | bind (foldM ?f ?l ?a0) _ = _ =>
      destruct (foldM f l a0) as [a1| |] eqn:Hfold; simpl in H; try discriminate
  end.
  apply foldM_fill_windowed_shape in Hfold. simpl in Hfold.
  destruct Hfold as [Hs Hall].
  assert (Hwin : 1 <= Qfloor spatial_rank ->
                 Qfloor spatial_rank - 1 + Qceiling spatial_rank <
                 Qtruncate (spatial_rank * (2 # 1))).
  { intros H1. specialize (Hall (Qfloor spatial_rank - 1)).
    assert (Hin : In (Qfloor spatial_rank - 1) (py_range (Qfloor spatial_rank))).
    { unfold py_range. apply in_map_iff.
      exists (Z.to_nat (Qfloor spatial_rank - 1)). split; [lia|].
      apply in_seq. lia. }
    specialize (Hall Hin). lia. }
  destruct (Qceiling_cases spatial_rank) as [[Hb Hc]|[Hb Hc]]; rewrite Hb in H.
  - destruct (or_raise IndexError (py_getitem (meshgrid xi) (Qfloor spatial_rank)))
      as [row| |]; simpl in H; try discriminate.
    apply set_column_inv in H. lia.
  - lia.
Qed.

End CoordinateFacts.

(* ================================================================= *)
(** ** The sampling points along each dimension *)

Section StepsFacts.

Lemma py_getitem_nat {A : Type} (l : list A) (i : nat) :
  py_getitem l (Z.of_nat i) = nth_error l i.
Proof.
  unfold py_getitem.
  destruct (Z.of_nat i <? 0) eqn:H; [apply Z.ltb_lt in H; lia|].
  now rewrite Nat2Z.id.
Qed.

Lemma mapM_seq_inv {B : Type} (f : Z -> outcome B) m : forall k bs,
  mapM f (map Z.of_nat (seq k m)) = Return bs ->
  length bs = m /\
  forall i, (i < m)%nat ->
    exists b, nth_error bs i = Some b /\ f (Z.of_nat (k + i)) = Return b.
Proof.
  induction m as [|m IH]; intros k bs H; simpl in H.
  - injection H as <-. split; [reflexivity|]. intros i Hi. lia.
  - destruct (f (Z.of_nat k)) as [b| |] eqn:Hf; simpl in H; try discriminate.
    destruct (mapM f (map Z.of_nat (seq (S k) m))) as [bs'| |] eqn:Hm;
      simpl in H; try discriminate.
    injection H as <-. destruct (IH _ _ Hm) as [Hlen Hall].
    split; [simpl; now rewrite Hlen|].
    intros [|i] Hi.
    + exists b. rewrite Nat.add_0_r. now split.
    + destruct (Hall i ltac:(lia)) as (b' & Hb' & Hfb').
      exists b'. split; [exact Hb'|].
      now replace (k + S i)%nat with (S k + i)%nat by lia.
Qed.

Lemma mapM_seq_returns {B : Type} (f : Z -> outcome B) m : forall k,
  (forall i, (i < m)%nat -> exists b, f (Z.of_nat (k + i)) = Return b) ->
  exists bs, mapM f (map Z.of_nat (seq k m)) = Return bs.
Proof.
  induction m as [|m IH]; intros k H; simpl.
  - eauto.
  - destruct (H 0%nat ltac:(lia)) as [b Hb]. rewrite Nat.add_0_r in Hb.
    rewrite Hb. simpl.
    destruct (IH (S k)) as [bs Hbs].
    + intros i Hi. destruct (H (S i) ltac:(lia)) as [b' Hb'].
      exists b'. now replace (S k + i)%nat with (k + S i)%nat by lia.
    + rewrite Hbs. simpl. eauto.
Qed.

Lemma steps_or_diverge_inv d win_size step_size steps :
  steps_or_diverge d win_size step_size = Return steps <->
  _enumerate_step_points 0 d win_size step_size = Some steps.
Proof.
  unfold steps_or_diverge.
  destruct (_enumerate_step_points 0 d win_size step_size); split; congruence.
Qed.

(** What [steps_along_each] returns, dimension by dimension. *)
Lemma steps_along_each_inv spatial_rank img_size win_size grid_size xi :
  steps_along_each spatial_rank img_size win_size grid_size = Return xi ->
  0 <= Qfloor spatial_rank ->
  Z.of_nat (length xi) = Qceiling spatial_rank /\
  (forall i, (i < Z.to_nat (Qfloor spatial_rank))%nat ->
     exists steps, nth_error xi i = Some steps /\
                   dimension_steps img_size win_size grid_size i = Some steps) /\
  (Qfloor spatial_rank < Qceiling spatial_rank ->
     exists steps, nth_error xi (Z.to_nat (Qfloor spatial_rank)) = Some steps /\
                   dimension_steps img_size 1 1
                     (Z.to_nat (Qfloor spatial_rank)) = Some steps).
Proof.
  intros H H0. unfold steps_along_each in H.
  set (nw := Z.to_nat (Qfloor spatial_rank)) in *.
  assert (Hnw : Qfloor spatial_rank = Z.of_nat nw) by (unfold nw; lia).
  clearbody nw. rewrite Hnw in H. rewrite py_range_nat in H.
  match type of H with
  | bind (mapM ?f ?l) _ = _ =>
      destruct (mapM f l) as [ws| |] eqn:Hm; simpl in H; try discriminate
  end.
  apply mapM_seq_inv in Hm. destruct Hm as [Hlen Hall].
  assert (Hwin : forall i, (i < nw)%nat ->
            exists steps, nth_error ws i = Some steps /\
                          dimension_steps img_size win_size grid_size i = Some steps).
  { intros i Hi. destruct (Hall i Hi) as (b & Hb & Hf). exists b. split; [exact Hb|].
    simpl in Hf. rewrite py_getitem_nat in Hf. unfold dimension_steps.
    destruct (nth_error img_size i) as [d|]; simpl in Hf; [|discriminate].
    now apply steps_or_diverge_inv. }
  rewrite <- Hnw in H.
  destruct (Qceiling_cases spatial_rank) as [[Hb Hc]|[Hb Hc]]; rewrite Hb in H.
  - rewrite Hnw, py_getitem_nat in H.
    destruct (nth_error img_size nw) as [d|] eqn:Hd; simpl in H; [|discriminate].
    destruct (steps_or_diverge d 1 1) as [steps| |] eqn:Hs; simpl in H; try discriminate.
    injection H as <-. repeat split.
    + rewrite length_app. simpl. lia.
    + intros i Hi. destruct (Hwin i Hi) as (s & Hs1 & Hs2). exists s.
      split; [|exact Hs2]. rewrite nth_error_app1 by lia. exact Hs1.
    + intros _. exists steps. split.
      * rewrite nth_error_app2 by lia. rewrite Hlen, Nat.sub_diag. reflexivity.
      * unfold dimension_steps. rewrite Hd. now apply steps_or_diverge_inv.
  - injection H as <-. repeat split.
    + lia.
    + exact Hwin.
    + intros Hlt. lia.
Qed.

(** Below rank zero the list of step points is too short for any
    reshape to succeed. *)
Lemma steps_along_each_length spatial_rank img_size win_size grid_size xi :
  steps_along_each spatial_rank img_size win_size grid_size = Return xi ->
  Z.of_nat (length xi) = Qceiling spatial_rank \/ Qceiling spatial_rank <= 0.
Proof.
  intros H. destruct (Z_lt_le_dec (Qfloor spatial_rank) 0) as [Hneg|Hpos].
  - right. destruct (Qceiling_cases spatial_rank) as [[_ Hc]|[_ Hc]]; lia.
  - left. now apply steps_along_each_inv in H.
Qed.

Lemma dimension_steps_returns img_size win_size step_size i :
  0 < step_size -> (i < length img_size)%nat ->
  exists steps, dimension_steps img_size win_size step_size i = Some steps.
Proof.
  intros Hst Hi. unfold dimension_steps.
  destruct (nth_error img_size i) as [d|] eqn:Hd.
  - apply StepPointsFacts.enumerate_terminates. now left.
  - apply nth_error_None in Hd. lia.
Qed.

Lemma steps_along_each_returns spatial_rank img_size win_size grid_size :
  0 < grid_size -> 0 <= Qfloor spatial_rank ->
  Qceiling spatial_rank <= Z.of_nat (length img_size) ->
  exists xi, steps_along_each spatial_rank img_size win_size grid_size = Return xi.
Proof.
  intros Hg H0 Hlen. unfold steps_along_each.
  assert (Hfc := Qfloor_le_ceiling spatial_rank).
  set (nw := Z.to_nat (Qfloor spatial_rank)).
  assert (Hnw : Qfloor spatial_rank = Z.of_nat nw) by (unfold nw; lia).
  clearbody nw. cbv zeta. rewrite Hnw, py_range_nat.
  destruct (mapM_seq_returns
              (fun i => d <- or_raise IndexError (py_getitem img_size i) ;;
                        steps_or_diverge d win_size grid_size) nw 0%nat) as [ws Hws].
  { intros i Hi. simpl. rewrite py_getitem_nat.
    destruct (dimension_steps_returns img_size win_size grid_size i Hg ltac:(lia))
      as [steps Hs].
    unfold dimension_steps in Hs. destruct (nth_error img_size i); [|discriminate].
    simpl. exists steps. now apply steps_or_diverge_inv. }
  rewrite Hws. simpl. rewrite <- Hnw.
  destruct (Qceiling_cases spatial_rank) as [[Hb Hc]|[Hb Hc]]; rewrite Hb.
  - rewrite Hnw, py_getitem_nat.
    destruct (dimension_steps_returns img_size 1 1 nw ltac:(lia) ltac:(lia))
      as [steps Hs].
    unfold dimension_steps in Hs. destruct (nth_error img_size nw); [|discriminate].
    simpl. apply steps_or_diverge_inv in Hs. rewrite Hs. simpl. eauto.
  - eauto.
Qed.

End StepsFacts.

(* ================================================================= *)
(** ** The generator as a whole *)

Section GeneratorFacts.

Lemma generate_inv spatial_rank img_size win_size grid_size a :
  generate_grid_coordinates spatial_rank img_size win_size grid_size =
    Return (Some a) ->
  0 < grid_size /\
  1 <= Qceiling spatial_rank /\
  Qfloor spatial_rank + Qceiling spatial_rank <= Qtruncate (spatial_rank * (2 # 1)) /\
  exists xi,
    steps_along_each spatial_rank img_size win_size grid_size = Return xi /\
    Z.of_nat (length xi) = Qceiling spatial_rank /\
    a = mk_ndarray2 (Z.to_nat (Qtruncate (spatial_rank * (2 # 1))))
          (map (coordinate_of_point (Z.to_nat (Qfloor spatial_rank)) win_size)
               (meshgrid_points xi)).
Proof.
  unfold generate_grid_coordinates. intros H.
  destruct (grid_size <=? 0) eqn:Hg; [discriminate|]. apply Z.leb_gt in Hg.
  destruct (negb _); [discriminate|].
  destruct (steps_along_each spatial_rank img_size win_size grid_size)
    as [xi| |] eqn:Hs; simpl in H; try discriminate.
  destruct (all_coordinates spatial_rank win_size xi) as [a'| |] eqn:Ha;
    simpl in H; try discriminate.
  injection H as <-.
  destruct (all_coordinates_inv _ _ _ _ (steps_along_each_length _ _ _ _ _ Hs) Ha)
    as (Hlen & Hpos & Hfit).
  repeat split; try assumption.
  exists xi. repeat split; try assumption.
  rewrite all_coordinates_returns in Ha by assumption. congruence.
Qed.

(** The assertion of the generator, for a rank that is not negative. *)
Lemma extents_checked spatial_rank img_size win_size :
  0 <= Qfloor spatial_rank ->
  (forall i d, (Z.of_nat i < Qfloor spatial_rank) ->
               nth_error img_size i = Some d -> win_size <= d) ->
  forallb (fun d => win_size <=? d)
          (py_slice_to img_size (Qfloor spatial_rank)) = true.
Proof.
  intros H0 H. unfold py_slice_to.
  destruct (Qfloor spatial_rank <? 0) eqn:Hn; [apply Z.ltb_lt in Hn; lia|].
  apply forallb_forall. intros d Hd. apply Z.leb_le.
  apply In_nth_error in Hd. destruct Hd as [i Hi].
  assert (Hlt : (i < length (firstn (Z.to_nat (Qfloor spatial_rank)) img_size))%nat).
  { apply nth_error_Some. congruence. }
  rewrite length_firstn in Hlt.
  rewrite nth_error_firstn in Hi.
  destruct (Nat.ltb_spec i (Z.to_nat (Qfloor spatial_rank))); [|lia].
  apply (H i d); [lia|exact Hi].
Qed.

Lemma generate_returns spatial_rank img_size win_size grid_size :
  0 < grid_size ->
  (forall i d, (Z.of_nat i < Qfloor spatial_rank) ->
               nth_error img_size i = Some d -> win_size <= d) ->
  1 <= Qceiling spatial_rank ->
  Qceiling spatial_rank <= Z.of_nat (length img_size) ->
  Qfloor spatial_rank + Qceiling spatial_rank <= Qtruncate (spatial_rank * (2 # 1)) ->
  exists a,
    generate_grid_coordinates spatial_rank img_size win_size grid_size =
      Return (Some a).
Proof.
  intros Hg Hext Hpos Hlen Hfit.
  assert (H0 : 0 <= Qfloor spatial_rank)
    by (destruct (Qceiling_cases spatial_rank) as [[_ H]|[_ H]]; lia).
  unfold generate_grid_coordinates.
  destruct (grid_size <=? 0) eqn:Hgb; [apply Z.leb_le in Hgb; lia|].
  rewrite (extents_checked _ _ _ H0 Hext). simpl.
  destruct (steps_along_each_returns spatial_rank img_size win_size grid_size
              Hg H0 Hlen) as [xi Hxi].
  rewrite Hxi. simpl.
  destruct (steps_along_each_inv _ _ _ _ _ Hxi H0) as (Hl & _).
  rewrite all_coordinates_returns by assumption. simpl. eauto.
Qed.

(** The number of rows is the product of the sizes of the step sets. *)
Lemma steps_along_each_counts spatial_rank img_size win_size grid_size xi :
  steps_along_each spatial_rank img_size win_size grid_size = Return xi ->
  0 <= Qfloor spatial_rank ->
  fold_right Nat.mul 1%nat (map (@length Z) xi) =
  product_of_step_counts spatial_rank img_size win_size grid_size.
Proof.
  intros H H0. destruct (steps_along_each_inv _ _ _ _ _ H H0) as (Hlen & Hwin & Haux).
  unfold product_of_step_counts.
  set (nw := Z.to_nat (Qfloor spatial_rank)) in *.
  assert (Hsplit : xi = firstn nw xi ++ skipn nw xi) by (symmetry; apply firstn_skipn).
  assert (Hfc := Qfloor_le_ceiling spatial_rank).
  assert (Hfirst : map (@length Z) (firstn nw xi) =
                   map (fun i => step_count (dimension_steps img_size win_size grid_size i))
                       (seq 0 nw)).
  { apply nth_ext with (d := 0%nat) (d' := 0%nat).
    - rewrite !length_map, length_firstn, length_seq. lia.
    - intros i Hi. rewrite length_map, length_firstn in Hi.
      assert (Hi' : (i < nw)%nat) by lia.
      destruct (Hwin i Hi') as (steps & Hs1 & Hs2).
      rewrite (nth_indep _ 0%nat (length (@nil Z)))
        by (rewrite length_map, length_firstn; lia).
      rewrite map_nth.
      rewrite (nth_indep _ 0%nat
                 ((fun i => step_count (dimension_steps img_size win_size grid_size i))
                    0%nat))
        by (rewrite length_map, length_seq; lia).
      rewrite (map_nth (fun i => step_count (dimension_steps img_size win_size grid_size i))).
      rewrite seq_nth by lia. simpl. rewrite Hs2. simpl.
      f_equal. apply nth_error_nth. rewrite nth_error_firstn.
      destruct (Nat.ltb_spec i nw); [exact Hs1|lia]. }
  rewrite Hsplit, map_app, Hfirst.
  assert (Hprod : forall l1 l2,
            fold_right Nat.mul 1%nat (l1 ++ l2) =
            (fold_right Nat.mul 1%nat l1 * fold_right Nat.mul 1%nat l2)%nat).
  { induction l1 as [|x t IH]; intros l2; simpl; [lia|]. rewrite IH. lia. }
  rewrite Hprod. f_equal.
  destruct (Qceiling_cases spatial_rank) as [[Hb Hc]|[Hb Hc]]; rewrite Hb.
  - destruct (Haux ltac:(lia)) as (steps & Hs1 & Hs2). fold nw in Hs1, Hs2.
    rewrite Hs2. simpl.
    assert (Hskip : skipn nw xi = [steps]).
    { assert (Hl : length (skipn nw xi) = 1%nat) by (rewrite length_skipn; lia).
      destruct (skipn nw xi) as [|y [|z t]] eqn:Hsk; simpl in Hl; try lia.
      rewrite <- (firstn_skipn nw xi), nth_error_app2 in Hs1
        by (rewrite length_firstn; lia).
      rewrite length_firstn, Hsk in Hs1.
      replace (nw - Nat.min nw (length xi))%nat with 0%nat in Hs1 by lia.
      simpl in Hs1. congruence. }
    rewrite Hskip. simpl. lia.
  - assert (Hskip : skipn nw xi = []).
    { apply length_zero_iff_nil. rewrite length_skipn. lia. }
    rewrite Hskip. reflexivity.
Qed.

End GeneratorFacts.

(* ================================================================= *)
(** ** The generator always comes back *)

Section Termination.

Lemma bind_comes_back {A B : Type} (m : outcome A) (k : A -> outcome B) :
  m <> Diverge -> (forall a, k a <> Diverge) -> bind m k <> Diverge.
Proof. destruct m; simpl; auto; congruence. Qed.

Lemma or_raise_comes_back {A : Type} e (o : option A) : or_raise e o <> Diverge.
Proof. destruct o; simpl; congruence. Qed.

Lemma mapM_comes_back {A B : Type} (f : A -> outcome B) l :
  (forall a, f a <> Diverge) -> mapM f l <> Diverge.
Proof.
  intros Hf. induction l as [|a t IH]; simpl; [congruence|].
  apply bind_comes_back; [apply Hf|]. intros b.
  apply bind_comes_back; [exact IH|]. congruence.
Qed.

Lemma foldM_comes_back {A S : Type} (f : S -> A -> outcome S) l :
  (forall s a, f s a <> Diverge) -> forall s, foldM f l s <> Diverge.
Proof.
  intros Hf. induction l as [|a t IH]; intros s; simpl; [congruence|].
  apply bind_comes_back; [apply Hf|exact IH].
Qed.

Lemma set_column_comes_back a c values : set_column a c values <> Diverge.
Proof. unfold set_column. destruct (_ || _); congruence. Qed.

Lemma steps_or_diverge_comes_back d win_size step_size :
  0 < step_size -> steps_or_diverge d win_size step_size <> Diverge.
Proof.
  intros Hs. unfold steps_or_diverge.
  destruct (StepPointsFacts.enumerate_terminates 0 d win_size step_size
              (or_introl Hs)) as [l ->].
  congruence.
Qed.

Lemma all_coordinates_comes_back spatial_rank win_size steps :
  all_coordinates spatial_rank win_size steps <> Diverge.
Proof.
  unfold all_coordinates.
  apply bind_comes_back.
  { unfold reshape_rows. destruct (_ <=? _); [congruence|].
    destruct (negb _); congruence. }
  intros starting_. apply bind_comes_back.
  { unfold np_zeros. destruct (_ <? _); congruence. }
  intros a. apply bind_comes_back.
  { apply foldM_comes_back. intros s i. unfold fill_windowed.
    apply bind_comes_back; [apply or_raise_comes_back|]. intros row.
    apply bind_comes_back; [apply set_column_comes_back|]. intros a1.
    apply set_column_comes_back. }
  intros a'. destruct (Qlt_bool _ _); [|congruence].
  apply bind_comes_back; [apply or_raise_comes_back|]. intros row.
  apply set_column_comes_back.
Qed.

(** The step enumerator is only called with a positive step, so that
    [generate_grid_coordinates] returns or raises. *)
Lemma generate_comes_back spatial_rank img_size win_size grid_size :
  generate_grid_coordinates spatial_rank img_size win_size grid_size <> Diverge.
Proof.
  unfold generate_grid_coordinates.
  destruct (grid_size <=? 0) eqn:Hg; [congruence|]. apply Z.leb_gt in Hg.
  destruct (negb _); [congruence|].
  apply bind_comes_back.
  - unfold steps_along_each. apply bind_comes_back.
    + apply mapM_comes_back. intros i.
      apply bind_comes_back; [apply or_raise_comes_back|]. intros d.
      now apply steps_or_diverge_comes_back.
    + intros ws. destruct (Qlt_bool _ _); [|congruence].
      apply bind_comes_back; [apply or_raise_comes_back|]. intros d.
      apply bind_comes_back; [apply steps_or_diverge_comes_back; lia|].
      congruence.
  - intros steps. apply bind_comes_back; [apply all_coordinates_comes_back|].
    congruence.
Qed.

End Termination.

(* ================================================================= *)
(** ** The padding and the emission loop *)

Section SamplerFacts.

Lemma extra_patches_spec n b :
  1 <= b -> 0 <= n ->
  (n + extra_patches n b) mod b = 0 /\
  0 <= extra_patches n b < b /\
  (extra_patches n b = 0 <-> n mod b = 0).
Proof.
  intros Hb Hn. unfold extra_patches.
  assert (Hm := Z.mod_pos_bound n b ltac:(lia)).
  destruct (n mod b =? 0) eqn:He; simpl.
  - apply Z.eqb_eq in He. rewrite Z.add_0_r. repeat split; auto; lia.
  - apply Z.eqb_neq in He. repeat split; try lia.
    replace (n + (b - n mod b)) with (n - n mod b + 1 * b) by lia.
    rewrite Z.mod_add by lia.
    rewrite (Z.div_mod n b) at 1 by lia.
    replace (b * (n / b) + n mod b - n mod b) with ((n / b) * b) by lia.
    apply Z.mod_mul. lia.
Qed.

Lemma emit_loop_returns v locations n indices :
  n = Z.of_nat (length locations) -> 0 < n ->
  emit_loop v locations n indices =
  (map (fun i => mk_emission (vol_idx v)
                   (nth (Z.to_nat (i mod n)) locations []) v) indices,
   Return tt).
Proof.
  intros Hn Hpos. induction indices as [|i rest IH]; simpl; [reflexivity|].
  destruct (n =? 0) eqn:H0; [apply Z.eqb_eq in H0; lia|].
  assert (Hm := Z.mod_pos_bound i n Hpos).
  unfold py_getitem. destruct (i mod n <? 0) eqn:Hneg; [apply Z.ltb_lt in Hneg; lia|].
  destruct (nth_error locations (Z.to_nat (i mod n))) as [loc|] eqn:Hl.
  - rewrite IH. now rewrite (nth_error_nth _ _ [] Hl).
  - apply nth_error_None in Hl. lia.
Qed.

Lemma emit_locations_returns b v locations :
  1 <= b ->
  emit_locations b v locations =
  (map (fun i => mk_emission (vol_idx v)
                   (nth (Z.to_nat (i mod Z.of_nat (shape0 locations)))
                        (rows locations) []) v)
       (py_range (extend_n_patches (Z.of_nat (shape0 locations)) b)),
   Return tt).
Proof.
  intros Hb. unfold emit_locations.
  destruct (b =? 0) eqn:H0; [apply Z.eqb_eq in H0; lia|].
  destruct (Nat.eq_dec (shape0 locations) 0) as [Hz|Hnz].
  - rewrite Hz. change (Z.of_nat 0) with 0.
    unfold extend_n_patches, extra_patches.
    rewrite Z.mod_0_l by lia. reflexivity.
  - apply emit_loop_returns; unfold shape0 in *; lia.
Qed.

(** The samples of a volume are those of its locations. *)
Lemma sample_volume_emits s batch_size v locations :
  length (vol_shape v) <> 5%nat ->
  generate_grid_coordinates (patch_spatial_rank s) (vol_shape v)
    (patch_image_size s) (sampler_grid_size s) = Return (Some locations) ->
  sample_volume s batch_size v = emit_locations batch_size v locations.
Proof.
  intros Hs Hg. unfold sample_volume.
  destruct (Nat.eqb_spec (length (vol_shape v)) 5); [contradiction|].
  now rewrite Hg.
Qed.

End SamplerFacts.

(* ================================================================= *)
(** ** The properties of the specification *)

Lemma coveredb_spec steps win_size x :
  coveredb steps win_size x = true <-> covered steps win_size x.
Proof.
  unfold coveredb, covered. rewrite existsb_exists.
  split; intros (c & Hc & H); exists c; (split; [exact Hc|]).
  - apply andb_true_iff in H. destruct H as [H1 H2].
    apply Z.leb_le in H1. apply Z.ltb_lt in H2. lia.
  - apply andb_true_iff. split; [apply Z.leb_le|apply Z.ltb_lt]; lia.
Qed.

(** C1, amended.  Along a dimension of extent at least the window,
    with a positive grid size, no window of a step point reaches
    outside [[0, extent)]; and the windows leave no gap, so that their
    union is [[0, extent)], exactly when the grid size is at most the
    window size or the extent is at most twice the window size (the
    first and the last window then meet), an extent that is not
    positive leaving nothing to cover. *)
Theorem coverage_exact_condition (extent win_size grid_size : Z) :
  0 < grid_size -> win_size <= extent ->
  exists steps,
    _enumerate_step_points 0 extent win_size grid_size = Some steps /\
    (forall x, covered steps win_size x -> 0 <= x < extent) /\
    ((forall x, covered steps win_size x <-> 0 <= x < extent) <->
     (extent <= 0 \/ grid_size <= win_size \/ extent <= 2 * win_size)).
Proof.
  intros Hg Hw.
  destruct (StepPointsFacts.enumerate_terminates 0 extent win_size grid_size
              (or_introl Hg)) as [steps Hs].
  exists steps. split; [exact Hs|].
  assert (Hin := StepPointsFacts.enumerate_In _ _ _ _ _ Hs).
  assert (Hinside : forall x, covered steps win_size x -> 0 <= x < extent).
  { intros x (c & Hc & Hx). apply Hin in Hc.
    destruct Hc as [(j & Hj & Hall)|Hc].
    - specialize (Hall j (Nat.le_refl j)). nia.
    - lia. }
  split; [exact Hinside|]. split.
  - (* a gap when the grid is wider than the window and the two end
       windows do not meet: the position just after the first window *)
    intros Hcov.
    destruct (Z_le_gt_dec extent 0) as [He|He]; [now left|]. right.
    destruct (Z_le_gt_dec grid_size win_size) as [Hgw|Hgw]; [now left|]. right.
    destruct (Z_le_gt_dec extent (2 * win_size)) as [H2|H2]; [exact H2|].
    exfalso.
    destruct (proj2 (Hcov (Z.max win_size 0)) ltac:(lia)) as (c & Hc & Hx).
    apply Hin in Hc. destruct Hc as [(j & Hj & Hall)|Hc]; [|lia].
    destruct j as [|j]; [simpl in Hj; lia|]. nia.
  - intros Hcond x. split; [apply Hinside|]. intros Hx.
    destruct (Z_le_gt_dec (extent - win_size) x) as [Hlast|Hbefore].
    { exists (Z.max (extent - win_size) 0). split; [apply Hin; now right|lia]. }
    destruct Hcond as [He|[Hgw|H2]]; [lia| |].
    + exists (0 + Z.of_nat (Z.to_nat (x / grid_size)) * grid_size).
      assert (Hq : 0 <= x / grid_size) by (apply Z.div_pos; lia).
      assert (Hdm := Z.div_mod x grid_size ltac:(lia)).
      assert (Hmb := Z.mod_pos_bound x grid_size Hg).
      split.
      * apply Hin. left. exists (Z.to_nat (x / grid_size)). split; [reflexivity|].
        intros i Hi. assert (Z.of_nat i <= x / grid_size) by lia. nia.
      * rewrite Z2Nat.id by lia. nia.
    + exists 0. split; [|lia].
      apply Hin. left. exists 0%nat. split; [reflexivity|].
      intros i Hi. assert (i = 0%nat) by lia. subst i. simpl. lia.
Qed.

Lemma coverage_exact_condition_witness :
  exists steps,
    _enumerate_step_points 0 10 7 8 = Some steps /\
    (forall x, covered steps 7 x <-> 0 <= x < 10).
Proof.
  destruct (coverage_exact_condition 10 7 8) as (steps & Hs & _ & Hc);
    [lia|lia|].
  exists steps. split; [exact Hs|]. apply Hc. right. right. lia.
Defined.

(** C1 as stated fails: with extent 10, window 2 and grid size 5 the
    step points are 0, 5 and 8, and position 2 lies in no window. *)
Lemma coverage_gap_counterexample :
  exists steps,
    _enumerate_step_points 0 10 2 5 = Some steps /\
    2 <= 10 /\ 0 < 5 /\
    ~ (forall x, covered steps 2 x <-> 0 <= x < 10).
Proof.
  exists [0; 5; 8]. split; [reflexivity|]. split; [lia|]. split; [lia|].
  intros H. destruct (proj2 (H 2) ltac:(lia)) as (c & Hc & Hx).
  simpl in Hc. destruct Hc as [<-|[<-|[<-|[]]]]; lia.
Qed.

(** C2.  Whenever the step enumerator returns, its result is the
    strictly ascending sequence of exactly the points recorded by the
    loop and the point [max(ending - win_size, 0)], which it therefore
    always holds.  It returns for every positive step size, and more
    generally unless the step is not positive while the loop condition
    holds at the start, in which case the loop never stops. *)
Theorem enumerate_step_points_spec (starting ending win_size step_size : Z) :
  (0 < step_size \/ ending < starting + win_size ->
   exists l, _enumerate_step_points starting ending win_size step_size = Some l) /\
  (_enumerate_step_points starting ending win_size step_size = None ->
   step_size <= 0 /\ starting + win_size <= ending /\
   forall fuel,
     StepPoints.sampling_loop fuel starting ending win_size step_size [] = None) /\
  (forall l,
     _enumerate_step_points starting ending win_size step_size = Some l ->
     StronglySorted Z.lt l /\
     (forall x, In x l <->
                recorded_by_loop starting ending win_size step_size x \/
                x = Z.max (ending - win_size) 0) /\
     In (Z.max (ending - win_size) 0) l).
Proof.
  split; [apply StepPointsFacts.enumerate_terminates|]. split.
  - intros Hn. split; [|split].
    + destruct (Z_lt_le_dec 0 step_size) as [Hp|Hp]; [|exact Hp].
      destruct (StepPointsFacts.enumerate_terminates starting ending win_size
                  step_size (or_introl Hp)) as [l Hl]. congruence.
    + destruct (Z_le_gt_dec (starting + win_size) ending) as [Hp|Hp]; [exact Hp|].
      destruct (StepPointsFacts.enumerate_terminates starting ending win_size
                  step_size (or_intror (Z.gt_lt _ _ Hp))) as [l Hl]. congruence.
    + now apply StepPointsFacts.enumerate_None_diverges.
  - intros l Hl. split; [now apply StepPointsFacts.enumerate_sorted in Hl|].
    assert (Hin := StepPointsFacts.enumerate_In _ _ _ _ _ Hl).
    split; [exact Hin|]. apply Hin. now right.
Qed.

Lemma enumerate_step_points_spec_witness :
  _enumerate_step_points 0 10 7 5 = Some [0; 3] /\
  StronglySorted Z.lt [0; 3] /\ In (Z.max (10 - 7) 0) [0; 3].
Proof.
  destruct (enumerate_step_points_spec 0 10 7 5) as (_ & _ & H).
  destruct (H [0; 3] eq_refl) as (Hs & _ & Hi).
  split; [reflexivity|]. split; assumption.
Defined.

Lemma Qlt_bool_iff (a b : Q) : Qlt_bool a b = true <-> (a < b)%Q.
Proof.
  unfold Qlt_bool. rewrite negb_true_iff. split.
  - intros H. apply Qnot_le_lt. intros Hle. apply Qle_bool_iff in Hle. congruence.
  - intros H. destruct (Qle_bool b a) eqn:Hb; [|reflexivity].
    apply Qle_bool_iff in Hb. exfalso. now apply (Qlt_not_le a b).
Qed.

Lemma has_fraction_ceiling spatial_rank :
  has_fraction spatial_rank <-> Qceiling spatial_rank = Qfloor spatial_rank + 1.
Proof.
  unfold has_fraction. rewrite <- Qlt_bool_iff.
  destruct (Qceiling_cases spatial_rank) as [[Hb Hc]|[Hb Hc]]; rewrite Hb, Hc;
    split; intros; try reflexivity; try discriminate; lia.
Qed.

Lemma Forall2_nth_error {A B : Type} (R : A -> B -> Prop) l l' :
  Forall2 R l l' ->
  forall i a, nth_error l i = Some a ->
  exists b, nth_error l' i = Some b /\ R a b.
Proof.
  induction 1 as [|x y l l' Hxy _ IH]; intros [|i] a Ha; simpl in *; try discriminate.
  - injection Ha as <-. eauto.
  - now apply IH.
Qed.

(** With a unit window and a unit step the step points are the
    indices that fit a unit window, and the boundary point. *)
Lemma unit_steps_In d steps :
  _enumerate_step_points 0 d 1 1 = Some steps ->
  forall x, In x steps <-> (0 <= x /\ x + 1 <= d) \/ x = Z.max (d - 1) 0.
Proof.
  intros H x. rewrite (StepPointsFacts.enumerate_In _ _ _ _ _ H).
  unfold recorded_by_loop. split; intros [Hr|Hm]; try (now right); left.
  - destruct Hr as (j & -> & Hall). specialize (Hall j (Nat.le_refl j)). lia.
  - exists (Z.to_nat x). split; [lia|]. intros i Hi. lia.
Qed.



(** C6.  For a positive grid size and extents at least the window size
    on the windowed dimensions, the number of coordinates the
    generator returns is the product of the per-dimension step-point
    counts, the count of the auxiliary dimension included when the
    rank has a fraction.  The generator does return coordinates when
    the image has an extent for each of the [num_location_types]
    dimensions and the columns of the rank hold a start and an end for
    each windowed dimension. *)
Theorem cross_product_size (spatial_rank : Q) (img_size : list Z)
    (win_size grid_size : Z) :
  0 < grid_size ->
  (forall i d, Z.of_nat i < Qfloor spatial_rank ->
               nth_error img_size i = Some d -> win_size <= d) ->
  (forall a,
     generate_grid_coordinates spatial_rank img_size win_size grid_size =
       Return (Some a) ->
     shape0 a = product_of_step_counts spatial_rank img_size win_size grid_size) /\
  (1 <= Qceiling spatial_rank ->
   Qceiling spatial_rank <= Z.of_nat (length img_size) ->
   Qfloor spatial_rank + Qceiling spatial_rank <=
     Qtruncate (spatial_rank * (2 # 1)) ->
   exists a,
     generate_grid_coordinates spatial_rank img_size win_size grid_size =
       Return (Some a)).
Proof.
  intros Hg Hext. split.
  - intros a Hgen.
    destruct (generate_inv _ _ _ _ _ Hgen) as (_ & Hpos & Hfit & xi & Hxi & Hlen & ->).
    assert (H0 : 0 <= Qfloor spatial_rank)
      by (destruct (Qceiling_cases spatial_rank) as [[_ H]|[_ H]]; lia).
    unfold shape0. simpl. rewrite length_map, meshgrid_points_length.
    now apply steps_along_each_counts.
  - intros Hpos Hlen Hfit. now apply generate_returns.
Qed.

Lemma cross_product_size_witness :
  shape0 (mk_ndarray2 5
            [[0; 0; 0; 3; 3]; [0; 0; 1; 3; 3]; [1; 0; 0; 4; 3];
             [1; 0; 1; 4; 3]; [0; 2; 0; 3; 5]; [0; 2; 1; 3; 5];
             [1; 2; 0; 4; 5]; [1; 2; 1; 4; 5]]) =
  product_of_step_counts (5 # 2) [4; 5; 2] 3 2.
Proof.
  refine (proj1 (cross_product_size (5 # 2) [4; 5; 2] 3 2 _ _) _ _).
  - lia.
  - intros [|[|[|i]]] d Hi Hd; simpl in Hd; try discriminate;
      try (injection Hd as <-; lia).
    change (Qfloor (5 # 2)) with 2 in Hi. lia.
  - reflexivity.
Defined.

Lemma disabled_sampling_None spatial_rank img_size win_size grid_size :
  grid_size <= 0 ->
  generate_grid_coordinates spatial_rank img_size win_size grid_size = Return None.
Proof.
  intros Hg. unfold generate_grid_coordinates.
  destruct (grid_size <=? 0) eqn:Hb; [reflexivity|].
  apply Z.leb_gt in Hb. lia.
Qed.

(** C7.  Whatever the rank, the image size and the window size, a grid
    size that is not positive makes the generator return [None]: no
    coordinates, and no error. *)
Theorem disabled_sampling_returns_None (spatial_rank : Q) (img_size : list Z)
    (win_size grid_size : Z) :
  grid_size <= 0 ->
  generate_grid_coordinates spatial_rank img_size win_size grid_size = Return None.
Proof. apply disabled_sampling_None. Qed.

Lemma disabled_sampling_returns_None_witness :
  generate_grid_coordinates (3 # 1) [2; 2; 2] 5 0 = Return None.
Proof.
  apply disabled_sampling_returns_None. lia.
Defined.

(** C8.  With a positive grid size, an image whose extent along some
    windowed dimension [i], below the floor of the rank, is smaller
    than the window size makes the generator fail on its assertion. *)
Theorem small_extent_fails_assertion (spatial_rank : Q) (img_size : list Z)
    (win_size grid_size : Z) (i : nat) (d : Z) :
  0 < grid_size ->
  Z.of_nat i < Qfloor spatial_rank ->
  nth_error img_size i = Some d ->
  d < win_size ->
  generate_grid_coordinates spatial_rank img_size win_size grid_size =
    Raise AssertionError.
Proof.
  intros Hg Hi Hd Hsmall. unfold generate_grid_coordinates.
  destruct (grid_size <=? 0) eqn:Hb; [apply Z.leb_le in Hb; lia|].
  destruct (forallb (fun d => win_size <=? d)
              (py_slice_to img_size (Qfloor spatial_rank))) eqn:Hall;
    [|reflexivity].
  exfalso. rewrite forallb_forall in Hall.
  assert (Hin : In d (py_slice_to img_size (Qfloor spatial_rank))).
  { unfold py_slice_to.
    destruct (Qfloor spatial_rank <? 0) eqn:Hn; [apply Z.ltb_lt in Hn; lia|].
    apply (nth_error_In _ i). rewrite nth_error_firstn.
    destruct (Nat.ltb_spec i (Z.to_nat (Qfloor spatial_rank))); [exact Hd|lia]. }
  apply Hall in Hin. apply Z.leb_le in Hin. lia.
Qed.

Lemma small_extent_fails_assertion_witness :
  generate_grid_coordinates (3 # 1) [8; 2; 8] 4 1 = Raise AssertionError.
Proof.
  apply (small_extent_fails_assertion (3 # 1) [8; 2; 8] 4 1 1 2).
  - lia.
  - change (Qfloor (3 # 1)) with 3. lia.
  - reflexivity.
  - lia.
Defined.

Lemma dimension_steps_nonempty img_size win_size step_size i steps :
  dimension_steps img_size win_size step_size i = Some steps -> steps <> [].
Proof.
  unfold dimension_steps. destruct (nth_error img_size i); [|discriminate].
  apply StepPointsFacts.enumerate_nonempty.
Qed.

Lemma product_positive (counts : list nat) :
  Forall (fun c => (1 <= c)%nat) counts ->
  (1 <= fold_right Nat.mul 1%nat counts)%nat.
Proof.
  induction 1 as [|c t Hc _ IH]; simpl; [lia|]. nia.
Qed.

(** C9.  With a positive grid size and extents at least the window
    size, every per-dimension step-point set is non-empty, so the
    coordinates that the generator returns are at least one, and the
    index [i mod n_patches] of the emission loop never divides by
    zero: the loop runs to its end for any indices.  The generator
    does return coordinates under the conditions of C6. *)
Theorem at_least_one_coordinate (spatial_rank : Q) (img_size : list Z)
    (win_size grid_size : Z) :
  0 < grid_size ->
  (forall i d, Z.of_nat i < Qfloor spatial_rank ->
               nth_error img_size i = Some d -> win_size <= d) ->
  (forall i step_size steps,
     dimension_steps img_size win_size step_size i = Some steps -> steps <> []) /\
  (forall a,
     generate_grid_coordinates spatial_rank img_size win_size grid_size =
       Return (Some a) ->
     (1 <= shape0 a)%nat /\
     forall v indices,
       snd (emit_loop v (rows a) (Z.of_nat (shape0 a)) indices) = Return tt) /\
  (1 <= Qceiling spatial_rank ->
   Qceiling spatial_rank <= Z.of_nat (length img_size) ->
   Qfloor spatial_rank + Qceiling spatial_rank <=
     Qtruncate (spatial_rank * (2 # 1)) ->
   exists a,
     generate_grid_coordinates spatial_rank img_size win_size grid_size =
       Return (Some a)).
Proof.
  intros Hg Hext. split; [|split].
  - intros i step_size steps. apply dimension_steps_nonempty.
  - intros a Hgen.
    assert (Hn : (1 <= shape0 a)%nat).
    { destruct (generate_inv _ _ _ _ _ Hgen) as (_ & Hpos & _ & xi & Hxi & Hlen & ->).
      assert (H0 : 0 <= Qfloor spatial_rank)
        by (destruct (Qceiling_cases spatial_rank) as [[_ H]|[_ H]]; lia).
      destruct (steps_along_each_inv _ _ _ _ _ Hxi H0) as (_ & Hwin & Haux).
      unfold shape0. simpl. rewrite length_map, meshgrid_points_length.
      apply product_positive. apply Forall_forall. intros c Hc.
      apply in_map_iff in Hc. destruct Hc as (steps & <- & Hin).
      apply In_nth_error in Hin. destruct Hin as [i Hi].
      assert (Hne : steps <> []).
      { assert (Hlt : (i < length xi)%nat) by (apply nth_error_Some; congruence).
        destruct (Nat.lt_ge_cases i (Z.to_nat (Qfloor spatial_rank))) as [Hw|Ha].
        - destruct (Hwin i Hw) as (s & Hs & Hd).
          rewrite Hi in Hs. injection Hs as <-.
          now apply dimension_steps_nonempty in Hd.
        - assert (Hfc := Qfloor_le_ceiling spatial_rank).
          assert (Hi' : i = Z.to_nat (Qfloor spatial_rank)).
          { destruct (Qceiling_cases spatial_rank) as [[_ H]|[_ H]]; lia. }
          destruct (Haux ltac:(lia)) as (s & Hs & Hd).
          rewrite <- Hi', Hi in Hs. injection Hs as <-.
          now apply dimension_steps_nonempty in Hd. }
      destruct steps; [congruence|simpl; lia]. }
    split; [exact Hn|]. intros v indices.
    rewrite emit_loop_returns; [reflexivity|reflexivity|lia].
  - intros Hpos Hlen Hfit. now apply generate_returns.
Qed.

Lemma at_least_one_coordinate_witness :
  Nat.le 1 (shape0 (mk_ndarray2 2 [[0; 4]; [3; 7]; [6; 10]])).
Proof.
  refine (proj1 (proj1 (proj2 (at_least_one_coordinate (1 # 1) [10] 4 3 _ _)) _ _)).
  - lia.
  - intros [|i] d Hi Hd; simpl in Hd; try discriminate;
      try (injection Hd as <-; lia).
    change (Qfloor (1 # 1)) with 1 in Hi. lia.
  - reflexivity.
Defined.

(** C10.  A sampler whose grid size is not positive does not handle
    the absence of coordinates: on the first volume [layer_op] fails
    before any sample is emitted, on the shape of the [None] that the
    generator returned (or already on a volume of five dimensions),
    and the volumes that follow are never processed. *)
Theorem disabled_sampler_fails_on_first_volume (s : GridSampler) (batch_size : Z)
    (v : volume) (rest : list volume) :
  sampler_grid_size s <= 0 ->
  layer_op s batch_size (v :: rest) =
  ([], Raise (if (length (vol_shape v) =? 5)%nat
              then NotImplementedError else AttributeError)).
Proof.
  intros Hg. simpl. unfold sample_volume.
  destruct (length (vol_shape v) =? 5)%nat; [reflexivity|].
  rewrite disabled_sampling_None by exact Hg. reflexivity.
Qed.

Lemma disabled_sampler_fails_on_first_volume_witness :
  layer_op (mk_GridSampler (3 # 1) 4 0) 2
    [mk_volume 0 [8; 8; 8; 1]; mk_volume 1 [8; 8; 8; 1]] =
  ([], Raise AttributeError).
Proof.
  apply (disabled_sampler_fails_on_first_volume (mk_GridSampler (3 # 1) 4 0) 2
           (mk_volume 0 [8; 8; 8; 1]) [mk_volume 1 [8; 8; 8; 1]]).
  simpl. lia.
Defined.

(* ================================================================= *)
(** ** The examples of the specification *)

Example step_points_10_4_3 : _enumerate_step_points 0 10 4 3 = Some [0; 3; 6].
Proof. reflexivity. Qed.

Example step_points_10_7_5 : _enumerate_step_points 0 10 7 5 = Some [0; 3].
Proof. reflexivity. Qed.

Example padded_indices_5_3 :
  map em_loc
    (fst (emit_locations 3 (mk_volume 0 [5])
            (mk_ndarray2 1 [[0]; [1]; [2]; [3]; [4]]))) =
  [[0]; [1]; [2]; [3]; [4]; [0]].
Proof. reflexivity. Qed.

Example two_volumes_one_dimension :
  map (fun e => (em_idx e, em_loc e))
    (fst (layer_op (mk_GridSampler (1 # 1) 4 3) 2
            [mk_volume 7 [10]; mk_volume 8 [12]])) =
  [(7%nat, [0; 4]); (7%nat, [3; 7]); (7%nat, [6; 10]); (7%nat, [0; 4]);
   (8%nat, [0; 4]); (8%nat, [3; 7]); (8%nat, [6; 10]); (8%nat, [8; 12])].
Proof. reflexivity. Qed.

(** Ranks that the generator cannot lay out: rank zero has no array to
    reshape, and a fraction below one half leaves no column for the
    last end. *)
Example rank_zero_raises :
  generate_grid_coordinates (0 # 1) [10] 4 3 = Raise ValueError.
Proof. reflexivity. Qed.

Example rank_quarter_raises :
  generate_grid_coordinates (9 # 4) [4; 5; 2] 3 2 = Raise IndexError.
Proof. reflexivity. Qed.

Example missing_auxiliary_extent_raises :
  generate_grid_coordinates (5 # 2) [4; 5] 3 2 = Raise IndexError.
Proof. reflexivity. Qed.

(* ================================================================= *)
(** ** The step points in closed form *)

Section ClosedForm.

Lemma sorted_same_elements_eq (l1 : list Z) : forall l2,
  StronglySorted Z.lt l1 -> StronglySorted Z.lt l2 ->
  (forall x, In x l1 <-> In x l2) -> l1 = l2.
Proof.
  induction l1 as [|a t IH]; intros [|b u] H1 H2 Hin.
  - reflexivity.
  - exfalso. apply (proj2 (Hin b)). now left.
  - exfalso. apply (proj1 (Hin a)). now left.
  - inversion H1 as [|? ? Ht Ha]; subst. inversion H2 as [|? ? Hu Hb]; subst.
    rewrite Forall_forall in Ha, Hb.
    assert (Hab : a = b).
    { destruct (proj1 (Hin a) (or_introl eq_refl)) as [Heq|Hau]; [now symmetry|].
      destruct (proj2 (Hin b) (or_introl eq_refl)) as [Heq|Hbt]; [exact Heq|].
      specialize (Ha _ Hbt). specialize (Hb _ Hau). lia. }
    subst b. f_equal. apply IH; try assumption.
    intros x. split; intros Hx.
    + destruct (proj1 (Hin x) (or_intror Hx)) as [Heq|Hxu]; [|exact Hxu].
      specialize (Ha _ Hx). lia.
    + destruct (proj2 (Hin x) (or_intror Hx)) as [Heq|Hxt]; [|exact Hxt].
      specialize (Hb _ Hx). lia.
Qed.

Lemma sorted_multiples g n : forall a,
  0 < g -> StronglySorted Z.lt (map (fun j => Z.of_nat j * g) (seq a n)).
Proof.
  induction n as [|n IH]; intros a Hg; simpl; constructor.
  - now apply IH.
  - apply Forall_forall. intros x Hx. apply in_map_iff in Hx.
    destruct Hx as (j & <- & Hj). apply in_seq in Hj. nia.
Qed.

Lemma sorted_snoc (l : list Z) x :
  StronglySorted Z.lt l -> Forall (fun y => y < x) l ->
  StronglySorted Z.lt (l ++ [x]).
Proof.
  induction 1 as [|a t Ht IH Ha]; intros Hx; simpl.
  - repeat constructor.
  - inversion Hx; subst. constructor; [now apply IH|].
    apply Forall_app. split; [exact Ha|]. now constructor.
Qed.

Lemma step_points_from_zero_sorted extent win_size step_size :
  0 < step_size -> win_size <= extent ->
  StronglySorted Z.lt (step_points_from_zero extent win_size step_size).
Proof.
  intros Hg Hw. unfold step_points_from_zero.
  destruct ((extent - win_size) mod step_size =? 0) eqn:Hm.
  - rewrite app_nil_r. now apply sorted_multiples.
  - apply Z.eqb_neq in Hm. apply sorted_snoc; [now apply sorted_multiples|].
    apply Forall_forall. intros x Hx. apply in_map_iff in Hx.
    destruct Hx as (j & <- & Hj). apply in_seq in Hj.
    assert (Hq : 0 <= (extent - win_size) / step_size) by (apply Z.div_pos; lia).
    assert (Hdm := Z.div_mod (extent - win_size) step_size ltac:(lia)).
    assert (Hmb := Z.mod_pos_bound (extent - win_size) step_size Hg).
    assert (Z.of_nat j <= (extent - win_size) / step_size) by lia. nia.
Qed.

Lemma step_points_from_zero_In extent win_size step_size x :
  0 < step_size -> win_size <= extent ->
  In x (step_points_from_zero extent win_size step_size) <->
  recorded_by_loop 0 extent win_size step_size x \/
  x = Z.max (extent - win_size) 0.
Proof.
  intros Hg Hw. unfold step_points_from_zero, recorded_by_loop.
  assert (Hq : 0 <= (extent - win_size) / step_size) by (apply Z.div_pos; lia).
  assert (Hdm := Z.div_mod (extent - win_size) step_size ltac:(lia)).
  assert (Hmb := Z.mod_pos_bound (extent - win_size) step_size Hg).
  rewrite in_app_iff, in_map_iff. split.
  - intros [(j & <- & Hj)|Hl].
    + left. exists j. split; [lia|]. intros i Hi. apply in_seq in Hj.
      assert (Z.of_nat i <= (extent - win_size) / step_size) by lia. nia.
    + right. destruct ((extent - win_size) mod step_size =? 0); [destruct Hl|].
      destruct Hl as [<-|[]]. lia.
  - intros [(j & -> & Hall) | ->].
    + left. exists j. split; [lia|]. apply in_seq.
      specialize (Hall j (Nat.le_refl j)).
      assert (Z.of_nat j <= (extent - win_size) / step_size); [|lia].
      apply Z.div_le_lower_bound; lia.
    + destruct ((extent - win_size) mod step_size =? 0) eqn:Hm.
      * apply Z.eqb_eq in Hm. left.
        exists (Z.to_nat ((extent - win_size) / step_size)). split; [nia|].
        apply in_seq. lia.
      * right. left. lia.
Qed.

Lemma enumerate_from_zero extent win_size step_size :
  0 < step_size -> win_size <= extent ->
  _enumerate_step_points 0 extent win_size step_size =
  Some (step_points_from_zero extent win_size step_size).
Proof.
  intros Hg Hw.
  destruct (StepPointsFacts.enumerate_terminates 0 extent win_size step_size
              (or_introl Hg)) as [steps Hs].
  rewrite Hs. f_equal. apply sorted_same_elements_eq.
  - now apply StepPointsFacts.enumerate_sorted in Hs.
  - now apply step_points_from_zero_sorted.
  - intros x. rewrite (StepPointsFacts.enumerate_In _ _ _ _ _ Hs).
    now rewrite step_points_from_zero_In.
Qed.

Lemma step_points_from_zero_length extent win_size step_size :
  0 < step_size -> win_size <= extent ->
  Z.of_nat (length (step_points_from_zero extent win_size step_size)) =
  (extent - win_size + step_size - 1) / step_size + 1.
Proof.
  intros Hg Hw. unfold step_points_from_zero.
  assert (Hq : 0 <= (extent - win_size) / step_size) by (apply Z.div_pos; lia).
  assert (Hdm := Z.div_mod (extent - win_size) step_size ltac:(lia)).
  assert (Hmb := Z.mod_pos_bound (extent - win_size) step_size Hg).
  rewrite length_app, length_map, length_seq.
  set (k := (extent - win_size) / step_size) in *.
  set (r := (extent - win_size) mod step_size) in *.
  replace (extent - win_size + step_size - 1) with ((r + step_size - 1) + k * step_size)
    by lia.
  rewrite Z.div_add by lia.
  destruct (r =? 0) eqn:Hr.
  - apply Z.eqb_eq in Hr. rewrite Hr. simpl.
    rewrite Z.div_small by lia. lia.
  - apply Z.eqb_neq in Hr. simpl.
    replace (r + step_size - 1) with ((r - 1) + 1 * step_size) by lia.
    rewrite Z.div_add by lia. rewrite Z.div_small by lia. lia.
Qed.

Lemma enumerate_window_too_large starting ending win_size step_size :
  ending < starting + win_size ->
  _enumerate_step_points starting ending win_size step_size =
  Some [Z.max (ending - win_size) 0].
Proof.
  intros Hc. unfold _enumerate_step_points, StepPoints.loop_bound. simpl.
  destruct (starting + win_size <=? ending) eqn:Hb; [apply Z.leb_le in Hb; lia|].
  reflexivity.
Qed.

End ClosedForm.

(** X1.  Called as the generator calls it (start 0, positive step,
    window within the extent), the step enumerator returns the
    multiples of the step up to [extent - win_size], followed by
    [extent - win_size] when the step does not divide it; their number
    is the quotient of [extent - win_size] by the step, rounded up,
    plus one. *)
Theorem step_points_closed_form (extent win_size step_size : Z) :
  0 < step_size -> win_size <= extent ->
  exists steps,
    _enumerate_step_points 0 extent win_size step_size = Some steps /\
    steps = map (fun j => Z.of_nat j * step_size)
              (seq 0 (Z.to_nat ((extent - win_size) / step_size) + 1)) ++
            (if (extent - win_size) mod step_size =? 0 then []
             else [extent - win_size]) /\
    Z.of_nat (length steps) =
      (extent - win_size + step_size - 1) / step_size + 1.
Proof.
  intros Hg Hw. exists (step_points_from_zero extent win_size step_size).
  split; [now apply enumerate_from_zero|]. split; [reflexivity|].
  now apply step_points_from_zero_length.
Qed.

Lemma step_points_closed_form_witness :
  exists steps,
    _enumerate_step_points 0 12 4 3 = Some steps /\
    steps = [0; 3; 6; 8] /\ Z.of_nat (length steps) = 4.
Proof.
  destruct (step_points_closed_form 12 4 3) as (steps & Hs & He & Hl); [lia|lia|].
  exists steps. split; [exact Hs|]. split; [exact He|exact Hl].
Defined.

(** X2.  The auxiliary dimension is enumerated with a unit window and
    a unit step: for an extent [d >= 1] its step points are the
    indices [0, 1, ..., d - 1], each once; for an extent that is not
    positive the single index 0 is still produced. *)
Theorem unit_steps_enumerate_indices (d : Z) :
  (1 <= d ->
   _enumerate_step_points 0 d 1 1 = Some (map Z.of_nat (seq 0 (Z.to_nat d)))) /\
  (d <= 0 -> _enumerate_step_points 0 d 1 1 = Some [0]).
Proof.
  split; intros Hd.
  - rewrite enumerate_from_zero by lia. f_equal. unfold step_points_from_zero.
    rewrite Z.mod_1_r, Z.div_1_r. simpl. rewrite app_nil_r.
    replace (Z.to_nat (d - 1) + 1)%nat with (Z.to_nat d) by lia.
    apply map_ext. intros j. lia.
  - rewrite enumerate_window_too_large by lia.
    now rewrite Z.max_r by lia.
Qed.

Lemma unit_steps_enumerate_indices_witness :
  _enumerate_step_points 0 3 1 1 = Some [0; 1; 2] /\
  _enumerate_step_points 0 0 1 1 = Some [0].
Proof.
  destruct (unit_steps_enumerate_indices 3) as [H3 _].
  destruct (unit_steps_enumerate_indices 0) as [_ H0].
  split; [apply H3; lia|apply H0; lia].
Defined.

(** X3.  When the window does not fit between [starting] and
    [ending], the loop records nothing and the enumerator returns the
    single point [max(ending - win_size, 0)], whatever the step, even
    a step that is not positive. *)
Theorem window_too_large_single_point (starting ending win_size step_size : Z) :
  ending < starting + win_size ->
  _enumerate_step_points starting ending win_size step_size =
  Some [Z.max (ending - win_size) 0].
Proof. apply enumerate_window_too_large. Qed.

Lemma window_too_large_single_point_witness :
  _enumerate_step_points 0 5 8 0 = Some [0].
Proof.
  apply (window_too_large_single_point 0 5 8 0). lia.
Defined.

(* ================================================================= *)
(** ** When the generator returns, and when it raises *)

Section GeneratorOutcomes.

Lemma generate_assert_passed spatial_rank img_size win_size grid_size a :
  generate_grid_coordinates spatial_rank img_size win_size grid_size =
    Return (Some a) ->
  forallb (fun d => win_size <=? d)
          (py_slice_to img_size (Qfloor spatial_rank)) = true.
Proof.
  unfold generate_grid_coordinates. intros H.
  destruct (grid_size <=? 0); [discriminate|].
  destruct (forallb _ _); [reflexivity|discriminate].
Qed.

Lemma extents_checked_inv spatial_rank img_size win_size :
  0 <= Qfloor spatial_rank ->
  forallb (fun d => win_size <=? d)
          (py_slice_to img_size (Qfloor spatial_rank)) = true ->
  forall i d, Z.of_nat i < Qfloor spatial_rank ->
              nth_error img_size i = Some d -> win_size <= d.
Proof.
  intros H0 Hall i d Hi Hd. rewrite forallb_forall in Hall.
  apply Z.leb_le. apply Hall. unfold py_slice_to.
  destruct (Qfloor spatial_rank <? 0) eqn:Hn; [apply Z.ltb_lt in Hn; lia|].
  apply (nth_error_In _ i). rewrite nth_error_firstn.
  destruct (Nat.ltb_spec i (Z.to_nat (Qfloor spatial_rank))); [exact Hd|lia].
Qed.

Lemma dimension_steps_in_range img_size win_size step_size i steps :
  dimension_steps img_size win_size step_size i = Some steps ->
  (i < length img_size)%nat.
Proof.
  unfold dimension_steps. intros H. apply nth_error_Some.
  destruct (nth_error img_size i); [congruence|discriminate].
Qed.

Lemma steps_along_each_extents spatial_rank img_size win_size grid_size xi :
  steps_along_each spatial_rank img_size win_size grid_size = Return xi ->
  1 <= Qceiling spatial_rank ->
  Qceiling spatial_rank <= Z.of_nat (length img_size).
Proof.
  intros H Hpos.
  assert (H0 : 0 <= Qfloor spatial_rank)
    by (destruct (Qceiling_cases spatial_rank) as [[_ Hc]|[_ Hc]]; lia).
  destruct (steps_along_each_inv _ _ _ _ _ H H0) as (_ & Hwin & Haux).
  destruct (Qceiling_cases spatial_rank) as [[_ Hc]|[_ Hc]].
  - destruct (Haux ltac:(lia)) as (steps & _ & Hd).
    apply dimension_steps_in_range in Hd. lia.
  - destruct (Hwin (Z.to_nat (Qfloor spatial_rank) - 1)%nat ltac:(lia))
      as (steps & _ & Hd).
    apply dimension_steps_in_range in Hd. lia.
Qed.

Lemma mapM_seq_raises {B : Type} (f : Z -> outcome B) e m : forall k i,
  (i < m)%nat ->
  f (Z.of_nat (k + i)) = Raise e ->
  (forall j, (j < i)%nat -> exists b, f (Z.of_nat (k + j)) = Return b) ->
  mapM f (map Z.of_nat (seq k m)) = Raise e.
Proof.
  induction m as [|m IH]; intros k i Hi He Hbefore; [lia|]. simpl.
  destruct i as [|i].
  - rewrite Nat.add_0_r in He. now rewrite He.
  - destruct (Hbefore 0%nat ltac:(lia)) as [b Hb]. rewrite Nat.add_0_r in Hb.
    rewrite Hb. simpl.
    rewrite (IH (S k) i); [reflexivity|lia| |].
    + now replace (S k + i)%nat with (k + S i)%nat by lia.
    + intros j Hj. destruct (Hbefore (S j) ltac:(lia)) as [b' Hb'].
      exists b'. now replace (S k + j)%nat with (k + S j)%nat by lia.
Qed.

Lemma dimension_call_returns img_size win_size grid_size i :
  0 < grid_size -> (i < length img_size)%nat ->
  exists steps,
    (d <- or_raise IndexError (py_getitem img_size (Z.of_nat i)) ;;
     steps_or_diverge d win_size grid_size) = Return steps.
Proof.
  intros Hg Hi. rewrite py_getitem_nat.
  destruct (dimension_steps_returns img_size win_size grid_size i Hg Hi)
    as [steps Hs].
  unfold dimension_steps in Hs. destruct (nth_error img_size i); [|discriminate].
  simpl. exists steps. now apply steps_or_diverge_inv.
Qed.

Lemma steps_along_each_missing_extent spatial_rank img_size win_size grid_size :
  0 < grid_size -> 0 <= Qfloor spatial_rank ->
  Z.of_nat (length img_size) < Qceiling spatial_rank ->
  steps_along_each spatial_rank img_size win_size grid_size = Raise IndexError.
Proof.
  intros Hg H0 Hlen. unfold steps_along_each. cbv zeta.
  set (nw := Z.to_nat (Qfloor spatial_rank)).
  assert (Hnw : Qfloor spatial_rank = Z.of_nat nw) by (unfold nw; lia).
  clearbody nw. rewrite Hnw, py_range_nat.
  destruct (Nat.lt_ge_cases (length img_size) nw) as [Hshort|Hlong].
  - rewrite (mapM_seq_raises _ IndexError nw 0%nat (length img_size));
      [reflexivity|exact Hshort| |].
    + simpl. rewrite py_getitem_nat.
      rewrite (proj2 (nth_error_None img_size (length img_size)) (Nat.le_refl _)).
      reflexivity.
    + intros j Hj. simpl. now apply dimension_call_returns.
  - destruct (mapM_seq_returns
                (fun i => d <- or_raise IndexError (py_getitem img_size i) ;;
                          steps_or_diverge d win_size grid_size) nw 0%nat)
      as [ws Hws].
    { intros i Hi. simpl. apply dimension_call_returns; [exact Hg|lia]. }
    rewrite Hws. simpl. rewrite <- Hnw.
    destruct (Qceiling_cases spatial_rank) as [[Hb Hc]|[Hb Hc]]; [|lia].
    rewrite Hb, Hnw, py_getitem_nat.
    rewrite (proj2 (nth_error_None img_size nw)) by lia. reflexivity.
Qed.

Lemma mapM_ext_in {A B : Type} (f g : A -> outcome B) l :
  (forall a, In a l -> f a = g a) -> mapM f l = mapM g l.
Proof.
  induction l as [|a t IH]; intros H; simpl; [reflexivity|].
  rewrite (H a (or_introl eq_refl)), IH; [reflexivity|].
  intros b Hb. apply H. now right.
Qed.

Lemma py_getitem_app {A : Type} (l extra : list A) i :
  0 <= i < Z.of_nat (length l) ->
  py_getitem (l ++ extra) i = py_getitem l i.
Proof.
  intros Hi. unfold py_getitem.
  destruct (i <? 0) eqn:Hn; [apply Z.ltb_lt in Hn; lia|].
  apply nth_error_app1. lia.
Qed.

End GeneratorOutcomes.

(** X4.  The generator returns coordinates exactly when the grid size
    is positive, every windowed extent is at least the window size,
    the rank rounds up to at least one dimension, the image has an
    extent for each of these dimensions, and twice the rank, its
    fraction dropped, leaves a start and an end column for every
    windowed dimension (the rank is an integer or its fraction is at
    least one half). *)
Theorem generate_returns_iff (spatial_rank : Q) (img_size : list Z)
    (win_size grid_size : Z) :
  (exists a,
     generate_grid_coordinates spatial_rank img_size win_size grid_size =
       Return (Some a)) <->
  0 < grid_size /\
  1 <= Qceiling spatial_rank /\
  Qceiling spatial_rank <= Z.of_nat (length img_size) /\
  Qfloor spatial_rank + Qceiling spatial_rank <=
    Qtruncate (spatial_rank * (2 # 1)) /\
  (forall i d, Z.of_nat i < Qfloor spatial_rank ->
               nth_error img_size i = Some d -> win_size <= d).
Proof.
  split.
  - intros [a Hgen].
    destruct (generate_inv _ _ _ _ _ Hgen) as (Hg & Hpos & Hfit & xi & Hxi & _ & _).
    assert (H0 : 0 <= Qfloor spatial_rank)
      by (destruct (Qceiling_cases spatial_rank) as [[_ Hc]|[_ Hc]]; lia).
    repeat split; try assumption.
    + now apply (steps_along_each_extents _ _ _ _ _ Hxi).
    + apply extents_checked_inv; [exact H0|].
      now apply generate_assert_passed in Hgen.
  - intros (Hg & Hpos & Hlen & Hfit & Hext). now apply generate_returns.
Qed.

Lemma generate_returns_iff_witness :
  exists a, generate_grid_coordinates (5 # 2) [4; 5; 2] 3 2 = Return (Some a).
Proof.
  apply (proj2 (generate_returns_iff (5 # 2) [4; 5; 2] 3 2)).
  change (Qfloor (5 # 2)) with 2. change (Qceiling (5 # 2)) with 3.
  change (Qtruncate ((5 # 2) * (2 # 1))) with 5.
  split; [lia|]. split; [lia|]. split; [simpl; lia|]. split; [lia|].
  intros [|[|[|i]]] d Hi Hd; simpl in Hd; try discriminate;
    try (injection Hd as <-; lia).
  lia.
Defined.

(** X5.  An image that has fewer extents than the rank has coordinate
    dimensions makes the generator raise an [IndexError], once the
    grid size is positive and the extents that exist pass the
    assertion. *)
Theorem missing_extent_raises_IndexError (spatial_rank : Q) (img_size : list Z)
    (win_size grid_size : Z) :
  0 < grid_size ->
  0 <= Qfloor spatial_rank ->
  (forall i d, Z.of_nat i < Qfloor spatial_rank ->
               nth_error img_size i = Some d -> win_size <= d) ->
  Z.of_nat (length img_size) < Qceiling spatial_rank ->
  generate_grid_coordinates spatial_rank img_size win_size grid_size =
    Raise IndexError.
Proof.
  intros Hg H0 Hext Hlen. unfold generate_grid_coordinates.
  destruct (grid_size <=? 0) eqn:Hgb; [apply Z.leb_le in Hgb; lia|].
  rewrite (extents_checked _ _ _ H0 Hext). simpl.
  now rewrite steps_along_each_missing_extent.
Qed.

Lemma missing_extent_raises_IndexError_witness :
  generate_grid_coordinates (3 # 1) [8; 8] 4 2 = Raise IndexError.
Proof.
  apply (missing_extent_raises_IndexError (3 # 1) [8; 8] 4 2).
  - lia.
  - change (Qfloor (3 # 1)) with 3. lia.
  - intros [|[|i]] d Hi Hd; simpl in Hd; try discriminate;
      try (injection Hd as <-; lia).
    destruct i; discriminate.
  - change (Qceiling (3 # 1)) with 3. simpl. lia.
Defined.

(** X6.  The generator reads the extents of the coordinate dimensions
    only: the extents that follow them (the modalities of a
    four-dimensional image, say) do not change its result. *)
Theorem trailing_extents_ignored (spatial_rank : Q) (img_size extra : list Z)
    (win_size grid_size : Z) :
  0 <= Qfloor spatial_rank ->
  Qceiling spatial_rank <= Z.of_nat (length img_size) ->
  generate_grid_coordinates spatial_rank (img_size ++ extra) win_size grid_size =
  generate_grid_coordinates spatial_rank img_size win_size grid_size.
Proof.
  intros H0 Hlen. assert (Hfc := Qfloor_le_ceiling spatial_rank).
  unfold generate_grid_coordinates.
  destruct (grid_size <=? 0); [reflexivity|].
  assert (Hslice : py_slice_to (img_size ++ extra) (Qfloor spatial_rank) =
                   py_slice_to img_size (Qfloor spatial_rank)).
  { unfold py_slice_to.
    destruct (Qfloor spatial_rank <? 0) eqn:Hn; [apply Z.ltb_lt in Hn; lia|].
    rewrite firstn_app.
    replace (Z.to_nat (Qfloor spatial_rank) - length img_size)%nat with 0%nat by lia.
    simpl. apply app_nil_r. }
  rewrite Hslice. destruct (negb _); [reflexivity|].
  assert (Hsteps : steps_along_each spatial_rank (img_size ++ extra) win_size grid_size =
                   steps_along_each spatial_rank img_size win_size grid_size).
  { unfold steps_along_each. cbv zeta.
    rewrite (mapM_ext_in
               (fun i => d <- or_raise IndexError (py_getitem (img_size ++ extra) i) ;;
                         steps_or_diverge d win_size grid_size)
               (fun i => d <- or_raise IndexError (py_getitem img_size i) ;;
                         steps_or_diverge d win_size grid_size)).
    - destruct (Qceiling_cases spatial_rank) as [[Hb Hc]|[Hb Hc]]; rewrite Hb;
        [|reflexivity].
      rewrite py_getitem_app by lia. reflexivity.
    - intros i Hi. unfold py_range in Hi. apply in_map_iff in Hi.
      destruct Hi as (j & <- & Hj). apply in_seq in Hj.
      rewrite py_getitem_app by lia. reflexivity. }
  now rewrite Hsteps.
Qed.

Lemma trailing_extents_ignored_witness :
  generate_grid_coordinates (2 # 1) ([6; 6] ++ [3; 4]) 4 2 =
  generate_grid_coordinates (2 # 1) [6; 6] 4 2.
Proof.
  apply (trailing_extents_ignored (2 # 1) [6; 6] [3; 4] 4 2).
  - change (Qfloor (2 # 1)) with 2. lia.
  - change (Qceiling (2 # 1)) with 2. simpl. lia.
Defined.

(* ================================================================= *)
(** ** The rows of the coordinate array *)

Section RowFacts.

(** Every list of step points that [steps_along_each] returns is the
    result of the step enumerator on some extent, with a positive step. *)
Lemma steps_along_each_enumerated spatial_rank img_size win_size grid_size xi :
  steps_along_each spatial_rank img_size win_size grid_size = Return xi ->
  0 <= Qfloor spatial_rank ->
  Forall (fun steps => exists i w st,
            dimension_steps img_size w st i = Some steps) xi.
Proof.
  intros H H0. destruct (steps_along_each_inv _ _ _ _ _ H H0) as (Hlen & Hwin & Haux).
  apply Forall_forall. intros steps Hin.
  apply In_nth_error in Hin. destruct Hin as [i Hi].
  assert (Hlt : (i < length xi)%nat) by (apply nth_error_Some; congruence).
  destruct (Nat.lt_ge_cases i (Z.to_nat (Qfloor spatial_rank))) as [Hw|Ha].
  - destruct (Hwin i Hw) as (s & Hs & Hd). rewrite Hi in Hs. injection Hs as <-.
    eauto.
  - assert (Hfc := Qfloor_le_ceiling spatial_rank).
    assert (Hi' : i = Z.to_nat (Qfloor spatial_rank)).
    { destruct (Qceiling_cases spatial_rank) as [[_ Hc]|[_ Hc]]; lia. }
    destruct (Haux ltac:(lia)) as (s & Hs & Hd).
    rewrite <- Hi', Hi in Hs. injection Hs as <-. eauto.
Qed.

Lemma generated_row_inv spatial_rank img_size win_size grid_size a row :
  generate_grid_coordinates spatial_rank img_size win_size grid_size =
    Return (Some a) ->
  In row (rows a) ->
  0 <= Qfloor spatial_rank /\
  exists xi p,
    steps_along_each spatial_rank img_size win_size grid_size = Return xi /\
    Z.of_nat (length xi) = Qceiling spatial_rank /\
    Forall2 (fun x xs => In x xs) p xi /\
    length p = Z.to_nat (Qceiling spatial_rank) /\
    row = coordinate_of_point (Z.to_nat (Qfloor spatial_rank)) win_size p.
Proof.
  intros Hgen Hrow.
  destruct (generate_inv _ _ _ _ _ Hgen) as (_ & Hpos & _ & xi & Hxi & Hlen & ->).
  split; [destruct (Qceiling_cases spatial_rank) as [[_ Hc]|[_ Hc]]; lia|].
  simpl in Hrow. apply in_map_iff in Hrow. destruct Hrow as (p & <- & Hp).
  exists xi, p. split; [exact Hxi|]. split; [exact Hlen|].
  split; [now apply meshgrid_points_In|].
  split; [|reflexivity].
  apply meshgrid_points_point_length in Hp. lia.
Qed.

Lemma generated_row_intro spatial_rank img_size win_size grid_size a xi p :
  generate_grid_coordinates spatial_rank img_size win_size grid_size =
    Return (Some a) ->
  steps_along_each spatial_rank img_size win_size grid_size = Return xi ->
  Forall2 (fun x xs => In x xs) p xi ->
  In (coordinate_of_point (Z.to_nat (Qfloor spatial_rank)) win_size p) (rows a).
Proof.
  intros Hgen Hxi Hp.
  destruct (generate_inv _ _ _ _ _ Hgen) as (_ & _ & _ & xi' & Hxi' & _ & ->).
  rewrite Hxi in Hxi'. injection Hxi' as <-. simpl.
  apply in_map. now apply meshgrid_points_In.
Qed.

(** The columns of the coordinate of a grid point. *)
Lemma coordinate_columns nw win_size p i :
  (i < nw)%nat -> (nw <= length p)%nat ->
  nth_error (coordinate_of_point nw win_size p) i = nth_error p i /\
  nth_error (coordinate_of_point nw win_size p) (i + length p) =
    option_map (fun s => s + win_size) (nth_error p i).
Proof.
  intros Hi Hn. unfold coordinate_of_point. split.
  - apply nth_error_app1. lia.
  - rewrite nth_error_app2 by lia.
    replace (i + length p - length p)%nat with i by lia.
    rewrite nth_error_map, nth_error_firstn.
    destruct (Nat.ltb_spec i nw); [reflexivity|lia].
Qed.

Lemma coordinate_auxiliary_column nw win_size p :
  (nw < length p)%nat ->
  nth_error (coordinate_of_point nw win_size p) nw = nth_error p nw.
Proof.
  intros Hn. unfold coordinate_of_point. apply nth_error_app1. exact Hn.
Qed.

(** A start taken from the step points of an extent leaves its window
    within the extent. *)
Lemma step_point_within d win_size step_size steps start :
  win_size <= d ->
  _enumerate_step_points 0 d win_size step_size = Some steps ->
  In start steps ->
  0 <= start /\ start + win_size <= d.
Proof.
  intros Hw Hs Hin. apply (StepPointsFacts.enumerate_In _ _ _ _ _ Hs) in Hin.
  destruct Hin as [(j & Hj & Hall)|Hm]; [|lia].
  specialize (Hall j (Nat.le_refl j)).
  destruct (Z_lt_le_dec step_size 0) as [Hneg|Hpos]; [|nia].
  exfalso.
  assert (Hdiv := StepPointsFacts.sampling_loop_diverges
                    (StepPoints.loop_bound 0 d win_size) 0 d win_size step_size []
                    ltac:(lia) ltac:(lia)).
  unfold _enumerate_step_points in Hs. rewrite Hdiv in Hs. discriminate.
Qed.

Lemma sorted_NoDup (l : list Z) : StronglySorted Z.lt l -> NoDup l.
Proof.
  induction 1 as [|a t Ht IH Ha]; constructor; [|exact IH].
  intros Hin. rewrite Forall_forall in Ha. specialize (Ha a Hin). lia.
Qed.

Lemma cartesian_NoDup axes :
  Forall (@NoDup Z) axes -> NoDup (cartesian axes).
Proof.
  induction 1 as [|xs rest Hxs _ IH]; simpl.
  - constructor; [intros []|constructor].
  - induction Hxs as [|x xs Hnin Hxs IHxs]; simpl; [constructor|].
    apply NoDup_app.
    + apply NoDup_map_NoDup_ForallPairs; [|exact IH].
      intros p q _ _ Heq. now injection Heq.
    + exact IHxs.
    + intros p Hp Hq. apply in_map_iff in Hp. destruct Hp as (p' & <- & _).
      apply in_flat_map in Hq. destruct Hq as (y & Hy & Hq).
      apply in_map_iff in Hq. destruct Hq as (q' & Heq & _).
      injection Heq as -> _. contradiction.
Qed.

Lemma Forall_swap01 {A : Type} (P : A -> Prop) l :
  Forall P l -> Forall P (swap01 l).
Proof.
  intros H. destruct H as [|a l Ha H]; simpl; [constructor|].
  destruct H as [|b l Hb H]; simpl; repeat constructor; assumption.
Qed.

Lemma meshgrid_points_NoDup xi :
  Forall (@NoDup Z) xi -> NoDup (meshgrid_points xi).
Proof.
  intros H. unfold meshgrid_points.
  apply NoDup_map_NoDup_ForallPairs.
  - intros p q _ _ Heq.
    rewrite <- (swap01_involutive p), <- (swap01_involutive q). now rewrite Heq.
  - apply cartesian_NoDup. now apply Forall_swap01.
Qed.

Lemma coordinate_of_point_injective nw win_size p q :
  length p = length q ->
  coordinate_of_point nw win_size p = coordinate_of_point nw win_size q ->
  p = q.
Proof.
  unfold coordinate_of_point. intros Hlen Heq.
  apply (f_equal (firstn (length p))) in Heq.
  rewrite firstn_app, Nat.sub_diag, firstn_all in Heq.
  rewrite Hlen, firstn_app, Nat.sub_diag, firstn_all in Heq.
  simpl in Heq. now rewrite !app_nil_r in Heq.
Qed.

End RowFacts.

(** X7.  Every generated window lies within the image: along each
    windowed dimension the start of a coordinate is not negative and
    its end, the start plus the window size, does not pass the extent;
    the index of the auxiliary dimension, when there is one, lies
    between 0 and the last index of that dimension. *)
Theorem windows_inside_image (spatial_rank : Q) (img_size : list Z)
    (win_size grid_size : Z) (a : ndarray2) (row : list Z) :
  generate_grid_coordinates spatial_rank img_size win_size grid_size =
    Return (Some a) ->
  In row (rows a) ->
  let num_windows := Z.to_nat (Qfloor spatial_rank) in
  let num_location_types := Z.to_nat (Qceiling spatial_rank) in
  (forall i, (i < num_windows)%nat ->
     exists start d,
       nth_error img_size i = Some d /\
       nth_error row i = Some start /\
       nth_error row (i + num_location_types) = Some (start + win_size) /\
       0 <= start /\ start + win_size <= d) /\
  (has_fraction spatial_rank ->
     exists aux d,
       nth_error img_size num_windows = Some d /\
       nth_error row num_windows = Some aux /\
       0 <= aux <= Z.max (d - 1) 0).
Proof.
  intros Hgen Hrow nw nlt.
  destruct (generated_row_inv _ _ _ _ _ _ Hgen Hrow)
    as (H0 & xi & p & Hxi & Hlen & Hp & Hplen & ->).
  assert (Hfc := Qfloor_le_ceiling spatial_rank).
  destruct (steps_along_each_inv _ _ _ _ _ Hxi H0) as (_ & Hwin & Haux).
  fold nw in Hwin, Haux |- *. fold nlt in Hplen.
  assert (Hext := extents_checked_inv _ _ _ H0 (generate_assert_passed _ _ _ _ _ Hgen)).
  split.
  - intros i Hi.
    destruct (nth_error p i) as [start|] eqn:Hpi;
      [|apply nth_error_None in Hpi; lia].
    destruct (Forall2_nth_error _ _ _ Hp i start Hpi) as (steps & Hs & Hin).
    destruct (Hwin i Hi) as (steps' & Hs' & Hd).
    rewrite Hs in Hs'. injection Hs' as <-.
    unfold dimension_steps in Hd.
    destruct (nth_error img_size i) as [d|] eqn:Himg; [|discriminate].
    exists start, d. split; [reflexivity|].
    destruct (coordinate_columns nw win_size p i Hi ltac:(lia)) as [Hc1 Hc2].
    rewrite Hplen in Hc2. rewrite Hc1, Hc2, Hpi. simpl.
    split; [reflexivity|]. split; [reflexivity|].
    apply (step_point_within d win_size grid_size steps start); try assumption.
    apply (Hext i d); [lia|exact Himg].
  - intros Hfrac. rewrite has_fraction_ceiling in Hfrac.
    destruct (Haux ltac:(lia)) as (steps & Hs & Hd).
    unfold dimension_steps in Hd.
    destruct (nth_error img_size nw) as [d|] eqn:Himg; [|discriminate].
    destruct (nth_error p nw) as [aux|] eqn:Hpa;
      [|apply nth_error_None in Hpa; lia].
    destruct (Forall2_nth_error _ _ _ Hp nw aux Hpa) as (steps' & Hs' & Hin).
    rewrite Hs in Hs'. injection Hs' as <-.
    exists aux, d. split; [reflexivity|].
    rewrite coordinate_auxiliary_column by lia. split; [exact Hpa|].
    apply (unit_steps_In d steps Hd) in Hin. lia.
Qed.

Lemma windows_inside_image_witness :
  exists start d,
    nth_error [4; 5; 2] 1 = Some d /\
    nth_error [1; 2; 0; 4; 5] 1 = Some start /\
    0 <= start /\ start + 3 <= d.
Proof.
  assert (Hgen : generate_grid_coordinates (5 # 2) [4; 5; 2] 3 2 =
                 Return (Some (mk_ndarray2 5
                   [[0; 0; 0; 3; 3]; [0; 0; 1; 3; 3]; [1; 0; 0; 4; 3];
                    [1; 0; 1; 4; 3]; [0; 2; 0; 3; 5]; [0; 2; 1; 3; 5];
                    [1; 2; 0; 4; 5]; [1; 2; 1; 4; 5]]))) by reflexivity.
  destruct (windows_inside_image (5 # 2) [4; 5; 2] 3 2 _ [1; 2; 0; 4; 5] Hgen)
    as [Hw _]; [simpl; tauto|].
  destruct (Hw 1%nat) as (start & d & Hd & Hs & _ & Hb);
    [change (Z.to_nat (Qfloor (5 # 2))) with 2%nat; lia|].
  exists start, d. repeat split; try assumption; lia.
Defined.

(** X8.  The generator returns no coordinate twice. *)
Theorem coordinates_are_distinct (spatial_rank : Q) (img_size : list Z)
    (win_size grid_size : Z) (a : ndarray2) :
  generate_grid_coordinates spatial_rank img_size win_size grid_size =
    Return (Some a) ->
  NoDup (rows a).
Proof.
  intros Hgen.
  destruct (generate_inv _ _ _ _ _ Hgen) as (_ & Hpos & _ & xi & Hxi & Hlen & ->).
  assert (H0 : 0 <= Qfloor spatial_rank)
    by (destruct (Qceiling_cases spatial_rank) as [[_ Hc]|[_ Hc]]; lia).
  simpl. apply NoDup_map_NoDup_ForallPairs.
  - intros p q Hp Hq. apply coordinate_of_point_injective.
    apply meshgrid_points_point_length in Hp, Hq. congruence.
  - apply meshgrid_points_NoDup.
    eapply Forall_impl; [|exact (steps_along_each_enumerated _ _ _ _ _ Hxi H0)].
    intros steps (i & w & st & Hd). apply sorted_NoDup.
    unfold dimension_steps in Hd. destruct (nth_error img_size i); [|discriminate].
    now apply StepPointsFacts.enumerate_sorted in Hd.
Qed.

Lemma coordinates_are_distinct_witness :
  NoDup [[0; 4]; [3; 7]; [6; 10]].
Proof.
  apply (coordinates_are_distinct (1 # 1) [10] 4 3
           (mk_ndarray2 2 [[0; 4]; [3; 7]; [6; 10]])).
  reflexivity.
Defined.

(* ================================================================= *)
(** ** Coverage of the image, and the number of coordinates *)

Section ImageCoverage.

Lemma covering_step d win_size grid_size steps x :
  0 < grid_size -> grid_size <= win_size -> win_size <= d ->
  _enumerate_step_points 0 d win_size grid_size = Some steps ->
  0 <= x < d ->
  exists c, In c steps /\ c <= x < c + win_size.
Proof.
  intros Hg Hgw Hw Hs Hx.
  assert (Hin := StepPointsFacts.enumerate_In _ _ _ _ _ Hs).
  destruct (Z_le_gt_dec (d - win_size) x) as [Hlast|Hbefore].
  - exists (Z.max (d - win_size) 0). split; [apply Hin; now right|lia].
  - exists (0 + Z.of_nat (Z.to_nat (x / grid_size)) * grid_size).
    assert (Hq : 0 <= x / grid_size) by (apply Z.div_pos; lia).
    assert (Hdm := Z.div_mod x grid_size ltac:(lia)).
    assert (Hmb := Z.mod_pos_bound x grid_size Hg).
    split.
    + apply Hin. left. exists (Z.to_nat (x / grid_size)). split; [reflexivity|].
      intros i Hi. assert (Z.of_nat i <= x / grid_size) by lia. nia.
    + rewrite Z2Nat.id by lia. nia.
Qed.

(** One value can be chosen in each list so as to satisfy a property
    that depends on the position of the list. *)
Lemma build_point (xi : list (list Z)) : forall (P : nat -> Z -> Prop),
  (forall i steps, nth_error xi i = Some steps -> exists c, In c steps /\ P i c) ->
  exists p,
    Forall2 (fun x xs => In x xs) p xi /\
    forall i c, nth_error p i = Some c -> P i c.
Proof.
  induction xi as [|steps rest IH]; intros P H.
  - exists []. split; [constructor|]. intros [|i] c Hc; discriminate.
  - destruct (H 0%nat steps eq_refl) as (c0 & Hin0 & HP0).
    destruct (IH (fun i => P (S i))) as (p & Hp & HP).
    { intros i s Hs. apply (H (S i) s Hs). }
    exists (c0 :: p). split; [now constructor|].
    intros [|i] c Hc; simpl in Hc.
    + injection Hc as <-. exact HP0.
    + now apply HP.
Qed.

Lemma firstn_as_map_seq (l : list Z) : forall n,
  (n <= length l)%nat -> firstn n l = map (fun i => nth i l 0) (seq 0 n).
Proof.
  induction l as [|x t IH]; intros [|n] Hn; simpl in *; try reflexivity; try lia.
  f_equal. rewrite <- seq_shift, map_map. apply IH. lia.
Qed.

Lemma product_of_nat (l : list nat) :
  Z.of_nat (fold_right Nat.mul 1%nat l) = fold_right Z.mul 1 (map Z.of_nat l).
Proof.
  induction l as [|x t IH]; simpl fold_right; simpl map; [reflexivity|].
  now rewrite Nat2Z.inj_mul, IH.
Qed.

Lemma dimension_steps_count img_size win_size grid_size i d :
  0 < grid_size -> nth_error img_size i = Some d -> win_size <= d ->
  Z.of_nat (step_count (dimension_steps img_size win_size grid_size i)) =
  (d - win_size + grid_size - 1) / grid_size + 1.
Proof.
  intros Hg Hd Hw. unfold dimension_steps. rewrite Hd.
  rewrite enumerate_from_zero by assumption. simpl.
  now apply step_points_from_zero_length.
Qed.

Lemma auxiliary_steps_count img_size i d :
  nth_error img_size i = Some d ->
  Z.of_nat (step_count (dimension_steps img_size 1 1 i)) = Z.max d 1.
Proof.
  intros Hd. unfold dimension_steps. rewrite Hd.
  destruct (Z_lt_le_dec d 1) as [Hsmall|Hbig].
  - rewrite enumerate_window_too_large by lia. simpl. lia.
  - rewrite enumerate_from_zero by lia. simpl.
    rewrite step_points_from_zero_length by lia.
    replace (d - 1 + 1 - 1) with (d - 1) by lia. rewrite Z.div_1_r. lia.
Qed.

End ImageCoverage.

(** X9.  When the grid size is at most the window size, the windows of
    the generated coordinates cover the image: for every position
    within the extents of the coordinate dimensions there is a
    coordinate whose window holds the position along every windowed
    dimension and whose auxiliary index, when there is one, is that of
    the position. *)
Theorem every_position_is_sampled (spatial_rank : Q) (img_size : list Z)
    (win_size grid_size : Z) (a : ndarray2) (x : list Z) :
  generate_grid_coordinates spatial_rank img_size win_size grid_size =
    Return (Some a) ->
  grid_size <= win_size ->
  let num_windows := Z.to_nat (Qfloor spatial_rank) in
  let num_location_types := Z.to_nat (Qceiling spatial_rank) in
  length x = num_location_types ->
  (forall i xi d, nth_error x i = Some xi -> nth_error img_size i = Some d ->
                  0 <= xi < d) ->
  exists row,
    In row (rows a) /\
    (forall i xi, (i < num_windows)%nat -> nth_error x i = Some xi ->
       exists start,
         nth_error row i = Some start /\
         nth_error row (i + num_location_types) = Some (start + win_size) /\
         start <= xi < start + win_size) /\
    (has_fraction spatial_rank ->
       nth_error row num_windows = nth_error x num_windows).
Proof.
  intros Hgen Hgw nw nlt Hxlen Hx.
  destruct (generate_inv _ _ _ _ _ Hgen) as (Hg & Hpos & _ & xi & Hxi & Hlen & _).
  assert (H0 : 0 <= Qfloor spatial_rank)
    by (destruct (Qceiling_cases spatial_rank) as [[_ Hc]|[_ Hc]]; lia).
  assert (Hfc := Qfloor_le_ceiling spatial_rank).
  destruct (steps_along_each_inv _ _ _ _ _ Hxi H0) as (_ & Hwin & Haux).
  fold nw in Hwin, Haux.
  assert (Hext := extents_checked_inv _ _ _ H0 (generate_assert_passed _ _ _ _ _ Hgen)).
  destruct (build_point xi
              (fun i c => forall v, nth_error x i = Some v ->
                 if (i <? nw)%nat then c <= v < c + win_size else c = v))
    as (p & Hp & HP).
  { intros i steps Hs.
    assert (Hi : (i < length xi)%nat) by (apply nth_error_Some; congruence).
    destruct (nth_error x i) as [v|] eqn:Hv;
      [|apply nth_error_None in Hv; lia].
    destruct (Nat.ltb_spec i nw) as [Hw|Ha].
    - destruct (Hwin i Hw) as (steps' & Hs' & Hd).
      rewrite Hs in Hs'. injection Hs' as <-.
      unfold dimension_steps in Hd.
      destruct (nth_error img_size i) as [d|] eqn:Himg; [|discriminate].
      destruct (covering_step d win_size grid_size steps v Hg Hgw
                  (Hext i d ltac:(lia) Himg) Hd (Hx i v d Hv Himg))
        as (c & Hc & Hcov).
      exists c. split; [exact Hc|]. intros v' Hv'. injection Hv' as <-. exact Hcov.
    - assert (Hi' : i = nw)
        by (destruct (Qceiling_cases spatial_rank) as [[_ Hc]|[_ Hc]]; lia).
      destruct (Haux ltac:(lia)) as (steps' & Hs' & Hd).
      rewrite <- Hi', Hs in Hs'. injection Hs' as <-.
      unfold dimension_steps in Hd. rewrite <- Hi' in Hd.
      destruct (nth_error img_size i) as [d|] eqn:Himg; [|discriminate].
      exists v. split.
      + apply (unit_steps_In d steps Hd). left. specialize (Hx i v d Hv Himg). lia.
      + intros v' Hv'. now injection Hv'. }
  assert (Hplen : length p = nlt).
  { apply Forall2_length in Hp. lia. }
  exists (coordinate_of_point nw win_size p).
  split; [now apply (generated_row_intro _ _ _ _ _ _ _ Hgen Hxi Hp)|]. split.
  - intros i v Hi Hv.
    destruct (nth_error p i) as [start|] eqn:Hpi;
      [|apply nth_error_None in Hpi; lia].
    exists start.
    destruct (coordinate_columns nw win_size p i Hi ltac:(lia)) as [Hc1 Hc2].
    rewrite Hplen in Hc2. rewrite Hc1, Hc2, Hpi. simpl.
    split; [reflexivity|]. split; [reflexivity|].
    specialize (HP i start Hpi v Hv).
    destruct (Nat.ltb_spec i nw); [exact HP|lia].
  - intros Hfrac. rewrite has_fraction_ceiling in Hfrac.
    rewrite coordinate_auxiliary_column by lia.
    destruct (nth_error p nw) as [c|] eqn:Hpc;
      [|apply nth_error_None in Hpc; lia].
    destruct (nth_error x nw) as [v|] eqn:Hv;
      [|apply nth_error_None in Hv; lia].
    specialize (HP nw c Hpc v Hv).
    destruct (Nat.ltb_spec nw nw); [lia|]. now subst.
Qed.

Lemma every_position_is_sampled_witness :
  exists row,
    In row [[0; 0; 0; 3; 3]; [0; 0; 1; 3; 3]; [1; 0; 0; 4; 3];
            [1; 0; 1; 4; 3]; [0; 2; 0; 3; 5]; [0; 2; 1; 3; 5];
            [1; 2; 0; 4; 5]; [1; 2; 1; 4; 5]] /\
    nth_error row 2 = Some 1.
Proof.
  assert (Hgen : generate_grid_coordinates (5 # 2) [4; 5; 2] 3 2 =
                 Return (Some (mk_ndarray2 5
                   [[0; 0; 0; 3; 3]; [0; 0; 1; 3; 3]; [1; 0; 0; 4; 3];
                    [1; 0; 1; 4; 3]; [0; 2; 0; 3; 5]; [0; 2; 1; 3; 5];
                    [1; 2; 0; 4; 5]; [1; 2; 1; 4; 5]]))) by reflexivity.
  destruct (every_position_is_sampled (5 # 2) [4; 5; 2] 3 2 _ [3; 4; 1] Hgen)
    as (row & Hin & _ & Haux).
  - lia.
  - reflexivity.
  - intros [|[|[|i]]] xi d Hxi Hd; simpl in Hxi, Hd;
      try (injection Hxi as <-; injection Hd as <-; lia).
    destruct i; discriminate.
  - exists row. split; [exact Hin|].
    apply Haux. unfold has_fraction. reflexivity.
Defined.

(** X10.  The number of coordinates that the generator returns: the
    product, over the windowed dimensions, of the quotient of
    [extent - win_size] by the grid size, rounded up, plus one; times
    the extent of the auxiliary dimension (or one, if that extent is
    not positive) when the rank has a fraction. *)
Theorem number_of_coordinates (spatial_rank : Q) (img_size : list Z)
    (win_size grid_size : Z) (a : ndarray2) :
  generate_grid_coordinates spatial_rank img_size win_size grid_size =
    Return (Some a) ->
  let num_windows := Z.to_nat (Qfloor spatial_rank) in
  Z.of_nat (shape0 a) =
  fold_right Z.mul 1
    (map (fun d => (d - win_size + grid_size - 1) / grid_size + 1)
         (firstn num_windows img_size)) *
  (if Qlt_bool (inject_Z (Qfloor spatial_rank)) spatial_rank
   then Z.max (nth num_windows img_size 0) 1
   else 1).
Proof.
  intros Hgen nw.
  destruct (generate_inv _ _ _ _ _ Hgen) as (Hg & Hpos & _ & xi & Hxi & Hlen & ->).
  assert (H0 : 0 <= Qfloor spatial_rank)
    by (destruct (Qceiling_cases spatial_rank) as [[_ Hc]|[_ Hc]]; lia).
  assert (Hfc := Qfloor_le_ceiling spatial_rank).
  assert (Himg := steps_along_each_extents _ _ _ _ _ Hxi Hpos).
  assert (Hext := extents_checked_inv _ _ _ H0 (generate_assert_passed _ _ _ _ _ Hgen)).
  unfold shape0. simpl. rewrite length_map, meshgrid_points_length.
  rewrite (steps_along_each_counts _ _ _ _ _ Hxi H0).
  unfold product_of_step_counts. fold nw.
  rewrite Nat2Z.inj_mul, product_of_nat, map_map. f_equal.
  - f_equal. rewrite firstn_as_map_seq by lia. rewrite map_map.
    apply map_ext_in. intros i Hi. apply in_seq in Hi.
    apply dimension_steps_count; [exact Hg| |].
    + apply nth_error_nth'. lia.
    + apply (Hext i); [lia|]. apply nth_error_nth'. lia.
  - destruct (Qceiling_cases spatial_rank) as [[Hb Hc]|[Hb Hc]]; rewrite Hb;
      [|reflexivity].
    apply auxiliary_steps_count. apply nth_error_nth'. lia.
Qed.

Lemma number_of_coordinates_witness :
  Z.of_nat (shape0 (mk_ndarray2 5
            [[0; 0; 0; 3; 3]; [0; 0; 1; 3; 3]; [1; 0; 0; 4; 3];
             [1; 0; 1; 4; 3]; [0; 2; 0; 3; 5]; [0; 2; 1; 3; 5];
             [1; 2; 0; 4; 5]; [1; 2; 1; 4; 5]])) = 2 * (2 * 1) * 2.
Proof.
  apply (number_of_coordinates (5 # 2) [4; 5; 2] 3 2). reflexivity.
Defined.

(* ================================================================= *)
(** ** The sampler over several volumes *)

Section SamplerRuns.

Lemma emit_loop_comes_back v locations n indices :
  snd (emit_loop v locations n indices) <> Diverge.
Proof.
  induction indices as [|i rest IH]; simpl; [congruence|].
  destruct (n =? 0); [simpl; congruence|].
  destruct (py_getitem locations (i mod n)); [|simpl; congruence].
  destruct (emit_loop v locations n rest). exact IH.
Qed.

Lemma sample_volume_comes_back s batch_size v :
  snd (sample_volume s batch_size v) <> Diverge.
Proof.
  unfold sample_volume.
  destruct (length (vol_shape v) =? 5)%nat; [simpl; congruence|].
  destruct (generate_grid_coordinates _ _ _ _) as [[locations|]| |] eqn:Hg;
    simpl; try congruence.
  - unfold emit_locations. destruct (batch_size =? 0); [simpl; congruence|].
    apply emit_loop_comes_back.
  - now apply generate_comes_back in Hg.
Qed.

(** The emissions of a run over [vs1 ++ vs2]. *)
Lemma layer_op_app s batch_size vs1 vs2 :
  layer_op s batch_size (vs1 ++ vs2) =
  match layer_op s batch_size vs1 with
  | (out1, Return tt) =>
      let (out2, r) := layer_op s batch_size vs2 in (out1 ++ out2, r)
  | (out1, r) => (out1, r)
  end.
Proof.
  induction vs1 as [|v vs1 IH]; simpl.
  - destruct (layer_op s batch_size vs2). reflexivity.
  - destruct (sample_volume s batch_size v) as [out [[]| |]]; try reflexivity.
    rewrite IH.
    destruct (layer_op s batch_size vs1) as [out1 [[]| |]]; try reflexivity.
    destruct (layer_op s batch_size vs2) as [out2 r].
    now rewrite app_assoc.
Qed.

Lemma extend_n_patches_multiple n b :
  1 <= b -> 0 <= n ->
  0 <= extend_n_patches n b /\ (extend_n_patches n b) mod b = 0.
Proof.
  intros Hb Hn. destruct (extra_patches_spec n b Hb Hn) as (Hm & Hr & _).
  unfold extend_n_patches. split; [lia|exact Hm].
Qed.

Lemma sample_volume_count s b v :
  1 <= b ->
  Z.of_nat (length (fst (sample_volume s b v))) mod b = 0.
Proof.
  intros Hb. unfold sample_volume.
  destruct (length (vol_shape v) =? 5)%nat; [apply Z.mod_0_l; lia|].
  destruct (generate_grid_coordinates _ _ _ _) as [[locations|]| |];
    simpl; try (apply Z.mod_0_l; lia).
  rewrite emit_locations_returns by exact Hb. simpl.
  unfold py_range. rewrite !length_map, length_seq.
  destruct (extend_n_patches_multiple (Z.of_nat (shape0 locations)) b Hb ltac:(lia))
    as [Hpos Hm].
  now rewrite Z2Nat.id by lia.
Qed.

Lemma map_nth_seq_all {A : Type} (d : A) (l : list A) :
  map (fun i => nth i l d) (seq 0 (length l)) = l.
Proof.
  induction l as [|x t IH]; simpl; [reflexivity|].
  f_equal. rewrite <- seq_shift, map_map. exact IH.
Qed.




End SamplerRuns.

(** X11.  The generator and the sampler always come back: although the
    step enumerator loops for ever on a step that is not positive, the
    generator only calls it with a positive step, so that
    [generate_grid_coordinates] returns or raises, and a run of
    [layer_op] over any volumes ends, normally or on an exception. *)
Theorem sampler_always_comes_back (s : GridSampler) (batch_size : Z)
    (volumes : list volume) :
  (forall spatial_rank img_size win_size grid_size,
     generate_grid_coordinates spatial_rank img_size win_size grid_size
       <> Diverge) /\
  snd (layer_op s batch_size volumes) <> Diverge.
Proof.
  split; [intros; apply generate_comes_back|].
  induction volumes as [|v rest IH]; simpl; [congruence|].
  assert (Hv := sample_volume_comes_back s batch_size v).
  destruct (sample_volume s batch_size v) as [out [[]| |]]; simpl in *;
    try congruence.
  destruct (layer_op s batch_size rest) as [out' r]. exact IH.
Qed.

Lemma sampler_always_comes_back_witness :
  snd (layer_op (mk_GridSampler (1 # 1) 4 3) 2
         [mk_volume 7 [10]; mk_volume 8 [3]]) <> Diverge.
Proof.
  apply (proj2 (sampler_always_comes_back (mk_GridSampler (1 # 1) 4 3) 2
                  [mk_volume 7 [10]; mk_volume 8 [3]])).
Defined.

(** X12.  The sampler handles the volumes in the order of the loader
    and stops at the first one that fails: the emissions of a run over
    [vs1 ++ vs2] are those of the run over [vs1], followed by those of
    the run over [vs2] when the first run ended normally; when the
    first run raised, nothing of [vs2] is emitted and the exception is
    that of the first run. *)
Theorem layer_op_in_loader_order (s : GridSampler) (batch_size : Z)
    (vs1 vs2 : list volume) :
  (snd (layer_op s batch_size vs1) = Return tt ->
   layer_op s batch_size (vs1 ++ vs2) =
   (fst (layer_op s batch_size vs1) ++ fst (layer_op s batch_size vs2),
    snd (layer_op s batch_size vs2))) /\
  (snd (layer_op s batch_size vs1) <> Return tt ->
   layer_op s batch_size (vs1 ++ vs2) = layer_op s batch_size vs1).
Proof.
  rewrite layer_op_app.
  destruct (layer_op s batch_size vs1) as [out1 [[]| |]]; simpl; split;
    intros H; try congruence.
  destruct (layer_op s batch_size vs2). reflexivity.
Qed.

Lemma layer_op_in_loader_order_witness :
  layer_op (mk_GridSampler (1 # 1) 4 3) 2
    ([mk_volume 7 [10; 1; 1; 1; 1]] ++ [mk_volume 8 [12]]) =
  ([], Raise NotImplementedError).
Proof.
  destruct (layer_op_in_loader_order (mk_GridSampler (1 # 1) 4 3) 2
              [mk_volume 7 [10; 1; 1; 1; 1]] [mk_volume 8 [12]]) as [_ H].
  rewrite H; [reflexivity|]. simpl. discriminate.
Defined.

(** X13.  For a batch size of at least one, the number of samples that
    a run of the sampler has emitted when it ends, normally or on an
    exception, is a multiple of the batch size: no volume is left with
    a partial batch. *)
Theorem emitted_count_multiple_of_batch (s : GridSampler) (batch_size : Z)
    (volumes : list volume) :
  1 <= batch_size ->
  Z.of_nat (length (fst (layer_op s batch_size volumes))) mod batch_size = 0.
Proof.
  intros Hb. induction volumes as [|v rest IH]; simpl; [apply Z.mod_0_l; lia|].
  assert (Hv := sample_volume_count s batch_size v Hb).
  destruct (sample_volume s batch_size v) as [out [[]| |]]; simpl in *;
    try exact Hv.
  destruct (layer_op s batch_size rest) as [out' r]. simpl in *.
  rewrite length_app, Nat2Z.inj_add.
  rewrite Z.add_mod, Hv, IH by lia. apply Z.mod_0_l. lia.
Qed.

Lemma emitted_count_multiple_of_batch_witness :
  Z.of_nat (length (fst (layer_op (mk_GridSampler (1 # 1) 4 3) 2
                           [mk_volume 7 [10]; mk_volume 8 [12]]))) mod 2 = 0.
Proof.
  apply emitted_count_multiple_of_batch. lia.
Defined.







(** X17.  Called as the generator calls it, the step enumerator starts
    at 0, ends at [extent - win_size], the start of the window that
    touches the end of the extent, and never moves by more than the
    step between two consecutive points. *)
Theorem step_points_spacing (extent win_size step_size : Z) :
  0 < step_size -> win_size <= extent ->
  exists steps,
    _enumerate_step_points 0 extent win_size step_size = Some steps /\
    nth_error steps 0 = Some 0 /\
    last steps 0 = extent - win_size /\
    forall i c c',
      nth_error steps i = Some c -> nth_error steps (S i) = Some c' ->
      c < c' <= c + step_size.
Proof.
  intros Hg Hw. exists (step_points_from_zero extent win_size step_size).
  split; [now apply enumerate_from_zero|].
  unfold step_points_from_zero.
  assert (Hq : 0 <= (extent - win_size) / step_size) by (apply Z.div_pos; lia).
  assert (Hdm := Z.div_mod (extent - win_size) step_size ltac:(lia)).
  assert (Hmb := Z.mod_pos_bound (extent - win_size) step_size Hg).
  set (k := Z.to_nat ((extent - win_size) / step_size)).
  assert (Hk : Z.of_nat k = (extent - win_size) / step_size) by (unfold k; lia).
  clearbody k. split; [|split].
  - rewrite Nat.add_1_r. reflexivity.
  - rewrite Nat.add_1_r, seq_S, map_app. simpl.
    destruct ((extent - win_size) mod step_size =? 0) eqn:Hm.
    + apply Z.eqb_eq in Hm. rewrite app_nil_r, last_last. nia.
    + now rewrite last_last.
  - intros i c c' Hc Hc'.
    assert (Hlen : length (map (fun j => Z.of_nat j * step_size) (seq 0 (k + 1))) =
                   (k + 1)%nat) by now rewrite length_map, length_seq.
    destruct (Nat.lt_ge_cases (S i) (k + 1)) as [Hin|Hout].
    + rewrite nth_error_app1 in Hc, Hc' by lia.
      rewrite nth_error_map, nth_error_seq in Hc, Hc'.
      destruct (Nat.ltb_spec i (k + 1)); [|lia].
      destruct (Nat.ltb_spec (S i) (k + 1)); [|lia].
      unfold option_map in Hc, Hc'.
      assert (Ec : c = Z.of_nat (0 + i) * step_size) by congruence.
      assert (Ec' : c' = Z.of_nat (0 + S i) * step_size) by congruence.
      rewrite Ec, Ec', !Nat.add_0_l, Nat2Z.inj_succ. lia.
    + rewrite nth_error_app2 in Hc' by lia. rewrite Hlen in Hc'.
      destruct ((extent - win_size) mod step_size =? 0) eqn:Hm;
        [destruct (S i - (k + 1))%nat; discriminate|].
      apply Z.eqb_neq in Hm.
      destruct (S i - (k + 1))%nat as [|m] eqn:Hd; [|destruct m; discriminate].
      simpl in Hc'. injection Hc' as <-.
      rewrite nth_error_app1 in Hc by lia.
      rewrite nth_error_map, nth_error_seq in Hc.
      destruct (Nat.ltb_spec i (k + 1)); [|lia].
      unfold option_map in Hc.
      assert (Ec : c = Z.of_nat (0 + i) * step_size) by congruence.
      assert (i = k) by lia. subst i. rewrite Ec, Nat.add_0_l. lia.
Qed.

Lemma step_points_spacing_witness :
  exists steps,
    _enumerate_step_points 0 12 4 3 = Some steps /\
    nth_error steps 0 = Some 0 /\ last steps 0 = 12 - 4.
Proof.
  destruct (step_points_spacing 12 4 3) as (steps & Hs & H0 & Hl & _); [lia|lia|].
  exists steps. split; [exact Hs|]. split; [exact H0|exact Hl].
Defined.

(* ================================================================= *)
(** ** The phases of the partition table *)

Module PartitionerFacts.
Import Stdlib.Strings.String.
Import Partitioner.

Lemma cell_eqb_eq a b : cell_eqb a b = true <-> a = b.
Proof.
  destruct a as [x|], b as [y|]; simpl; split; intros H;
    try discriminate; try reflexivity.
  - apply String.eqb_eq in H. now subst.
  - injection H as ->. apply String.eqb_refl.
Qed.

Lemma merge_on_id_In left right l r :
  In (l, r) (merge_on_id left right) <->
  In l left /\ In r right /\ file_subject_id l = r.
Proof.
  unfold merge_on_id. rewrite in_flat_map. split.
  - intros (l' & Hl' & Hin). apply in_map_iff in Hin.
    destruct Hin as (r' & Heq & Hr'). injection Heq as -> ->.
    apply filter_In in Hr'. destruct Hr' as [Hr' He].
    apply cell_eqb_eq in He. auto.
  - intros (Hl & Hr & He). exists l. split; [exact Hl|].
    apply in_map. apply filter_In. split; [exact Hr|]. now apply cell_eqb_eq.
Qed.

Lemma length_zero_no_element {A : Type} (l : list A) :
  (List.length l =? 0)%nat = false <-> exists x, In x l.
Proof.
  destruct l as [|x t]; simpl; split; intros H; try discriminate.
  - destruct H as [x []].
  - exists x. now left.
  - reflexivity.
Qed.

(** X19.  [has_phase] answers [True] exactly when some subject that the
    partition table labels with the phase has a row in the file list.
    Without a partition table, or with an empty one, the answer is
    [False] whatever the file list; and a partition table that names
    the phase makes the call raise when no file list has been loaded. *)
Theorem has_phase_spec (self : partitioner) (phase : string) :
  (forall files,
     _file_list self = Some files ->
     (has_phase self phase = Answer true <->
      exists ids r f,
        _partition_ids self = Some ids /\
        In r ids /\ partition_phase r = Some phase /\
        In f files /\ file_subject_id f = partition_subject_id r) /\
     (has_phase self phase = Answer true \/ has_phase self phase = Answer false)) /\
  (_partition_ids self = None \/ _partition_ids self = Some [] ->
   has_phase self phase = Answer false) /\
  (forall ids r,
     _file_list self = None -> _partition_ids self = Some ids ->
     In r ids -> partition_phase r = Some phase ->
     has_phase self phase = MergeRaises).
Proof.
  assert (Hsel : forall ids,
            existsb (fun b => b)
              (map (fun r => cell_eqb (partition_phase r) (Some phase)) ids) = true <->
            exists r, In r ids /\ partition_phase r = Some phase).
  { intros ids. rewrite existsb_exists. split.
    - intros (b & Hb & ->). apply in_map_iff in Hb. destruct Hb as (r & Hr & Hin).
      exists r. split; [exact Hin|]. now apply cell_eqb_eq.
    - intros (r & Hin & Hr). exists true. split; [|reflexivity].
      apply in_map_iff. exists r. split; [|exact Hin]. now apply cell_eqb_eq. }
  split; [|split].
  - intros files Hfiles. unfold has_phase. rewrite Hfiles.
    destruct (_partition_ids self) as [ids|].
    2:{ split; [|now right]. split; [discriminate|].
        intros (ids & r & f & H & _). discriminate. }
    destruct (List.length ids =? 0)%nat eqn:Hlen.
    { split; [|now right]. split; [discriminate|].
      intros (ids' & r & f & H & Hr & _). injection H as <-.
      destruct ids; [destruct Hr|discriminate]. }
    destruct (existsb _ _) eqn:Hex; simpl.
    2:{ split; [|now right]. split; [discriminate|].
        intros (ids' & r & f & H & Hr & Hp & _). injection H as <-.
        assert (Ht : existsb (fun b => b)
                  (map (fun r => cell_eqb (partition_phase r) (Some phase)) ids) = true)
          by (apply Hsel; eauto).
        congruence. }
    split.
    + split.
      * intros H. injection H as H. apply negb_true_iff in H.
        apply length_zero_no_element in H. destruct H as [[l c] Hin].
        apply merge_on_id_In in Hin. destruct Hin as (Hl & Hc & He).
        apply in_map_iff in Hc. destruct Hc as (r & <- & Hr).
        apply filter_In in Hr. destruct Hr as [Hr Hp]. apply cell_eqb_eq in Hp.
        exists ids, r, l. auto.
      * intros (ids' & r & f & H & Hr & Hp & Hf & He). injection H as <-.
        f_equal. apply negb_true_iff. apply length_zero_no_element.
        exists (f, partition_subject_id r). apply merge_on_id_In.
        split; [exact Hf|]. split; [|exact He].
        apply in_map. apply filter_In. split; [exact Hr|]. now apply cell_eqb_eq.
    + destruct (negb _); [now left|now right].
  - unfold has_phase. intros [->| ->]; reflexivity.
  - intros ids r Hfiles Hids Hr Hp. unfold has_phase. rewrite Hids, Hfiles.
    destruct (List.length ids =? 0)%nat eqn:Hlen;
      [destruct ids; [destruct Hr|discriminate]|].
    assert (Ht : existsb (fun b => b)
              (map (fun r => cell_eqb (partition_phase r) (Some phase)) ids) = true)
      by (apply Hsel; eauto).
    rewrite Ht. reflexivity.
Qed.

Lemma has_phase_spec_witness :
  has_phase
    (mk_partitioner
       (Some [mk_file_row (Some "subject1"%string) [Some "t1.nii"%string]])
       (Some [mk_partition_row (Some "subject2"%string) (Some "training"%string)]))
    "training"%string = Answer false.
Proof.
  destruct (has_phase_spec
              (mk_partitioner
                 (Some [mk_file_row (Some "subject1"%string) [Some "t1.nii"%string]])
                 (Some [mk_partition_row (Some "subject2"%string)
                          (Some "training"%string)]))
              "training"%string) as [H _].
  destruct (H _ eq_refl) as [Hiff [Ht|Hf]]; [|exact Hf].
  apply Hiff in Ht. destruct Ht as (ids & r & f & Hids & Hr & _ & Hf & He).
  injection Hids as <-. simpl in Hr, Hf.
  destruct Hr as [<-|[]]. destruct Hf as [<-|[]]. discriminate.
Defined.

End PartitionerFacts.

(* ================================================================= *)
(** ** The padding of a volume, within a run of the sampler *)

Section SamplerPadding.

(** The emissions of a run at a volume that the run reaches. *)
Lemma layer_op_at_volume s batch_size vs1 v vs2 emitted :
  snd (layer_op s batch_size vs1) = Return tt ->
  sample_volume s batch_size v = (emitted, Return tt) ->
  fst (layer_op s batch_size (vs1 ++ v :: vs2)) =
  fst (layer_op s batch_size vs1) ++ emitted ++ fst (layer_op s batch_size vs2).
Proof.
  intros H1 Hv. rewrite layer_op_app.
  destruct (layer_op s batch_size vs1) as [out1 r1]. simpl in H1. subst r1.
  simpl. rewrite Hv.
  destruct (layer_op s batch_size vs2) as [out2 r2]. reflexivity.
Qed.

(** The samples of a volume for which the generator returned
    [locations], for a batch size of at least one. *)
Lemma sample_volume_returns s b v locations :
  1 <= b ->
  length (vol_shape v) <> 5%nat ->
  generate_grid_coordinates (patch_spatial_rank s) (vol_shape v)
    (patch_image_size s) (sampler_grid_size s) = Return (Some locations) ->
  sample_volume s b v =
  (map (fun i => mk_emission (vol_idx v)
                   (nth (Z.to_nat (i mod Z.of_nat (shape0 locations)))
                        (rows locations) []) v)
       (py_range (extend_n_patches (Z.of_nat (shape0 locations)) b)),
   Return tt).
Proof.
  intros Hb Hs Hg. rewrite (sample_volume_emits s b v locations Hs Hg).
  now apply emit_locations_returns.
Qed.

End SamplerPadding.

(** C3.  For a volume for which the generator returns [n] raw
    coordinates, and a batch size [b >= 1], the sampler emits for that
    volume [total = n + extra] samples, with [extra = b - n mod b] when
    [n mod b <> 0] and [0] otherwise: [total mod b = 0], [total >= n],
    and [total = n] exactly when [n mod b = 0].  These samples are the
    ones that a run of [layer_op] yields for the volume, between those
    of the volumes before it and those of the volumes after it. *)
Theorem sampler_batch_padding (s : GridSampler) (b : Z)
    (vs1 vs2 : list volume) (v : volume) (locations : ndarray2) :
  1 <= b ->
  length (vol_shape v) <> 5%nat ->
  generate_grid_coordinates (patch_spatial_rank s) (vol_shape v)
    (patch_image_size s) (sampler_grid_size s) = Return (Some locations) ->
  snd (layer_op s b vs1) = Return tt ->
  let n := Z.of_nat (shape0 locations) in
  let total := Z.of_nat (length (fst (sample_volume s b v))) in
  snd (sample_volume s b v) = Return tt /\
  fst (layer_op s b (vs1 ++ v :: vs2)) =
    fst (layer_op s b vs1) ++ fst (sample_volume s b v) ++ fst (layer_op s b vs2) /\
  total = n + (if n mod b =? 0 then 0 else b - n mod b) /\
  total mod b = 0 /\
  n <= total /\
  (total = n <-> n mod b = 0).
Proof.
  intros Hb Hs Hg H1 n total.
  assert (Hv := sample_volume_returns s b v locations Hb Hs Hg).
  split; [now rewrite Hv|]. split.
  - apply layer_op_at_volume; [exact H1|]. rewrite Hv. reflexivity.
  - unfold total. rewrite Hv. simpl.
    unfold py_range. rewrite !length_map, length_seq. fold n.
    destruct (extra_patches_spec n b Hb ltac:(lia)) as (Hmod & Hbound & Hzero).
    unfold extend_n_patches. rewrite Z2Nat.id by lia.
    split.
    + unfold extra_patches. destruct (n mod b =? 0); reflexivity.
    + repeat split; try lia; exact Hmod.
Qed.

Lemma sampler_batch_padding_witness :
  Z.of_nat (length (fst (sample_volume (mk_GridSampler (1 # 1) 4 3) 2
                           (mk_volume 7 [10])))) = 4 /\
  fst (layer_op (mk_GridSampler (1 # 1) 4 3) 2
         ([mk_volume 6 [12]] ++ mk_volume 7 [10] :: [])) =
  fst (layer_op (mk_GridSampler (1 # 1) 4 3) 2 [mk_volume 6 [12]]) ++
  fst (sample_volume (mk_GridSampler (1 # 1) 4 3) 2 (mk_volume 7 [10])) ++
  fst (layer_op (mk_GridSampler (1 # 1) 4 3) 2 []).
Proof.
  destruct (sampler_batch_padding (mk_GridSampler (1 # 1) 4 3) 2
              [mk_volume 6 [12]] [] (mk_volume 7 [10])
              (mk_ndarray2 2 [[0; 4]; [3; 7]; [6; 10]]))
    as (_ & Hrun & Ht & _).
  - lia.
  - simpl. lia.
  - reflexivity.
  - reflexivity.
  - split; [exact Ht|exact Hrun].
Defined.

(** C4.  For a volume for which the generator returns the coordinate
    list [locations] of [n] rows, and every step [i] below [total],
    the coordinate that the sampler passes to the patch sink at step
    [i] of the volume is [locations[i mod n]], with the identifier and
    the data of the volume: from [i = n] on, the first coordinates are
    used again.  In a run of [layer_op] this is the emission that
    follows, at distance [i], those of the volumes before. *)
Theorem sampler_wrap_around (s : GridSampler) (b : Z)
    (vs1 vs2 : list volume) (v : volume) (locations : ndarray2) (i : nat) :
  1 <= b ->
  length (vol_shape v) <> 5%nat ->
  generate_grid_coordinates (patch_spatial_rank s) (vol_shape v)
    (patch_image_size s) (sampler_grid_size s) = Return (Some locations) ->
  snd (layer_op s b vs1) = Return tt ->
  let n := Z.of_nat (shape0 locations) in
  Z.of_nat i < n + (if n mod b =? 0 then 0 else b - n mod b) ->
  exists loc,
    nth_error (rows locations) (i mod shape0 locations) = Some loc /\
    nth_error (fst (sample_volume s b v)) i =
      Some (mk_emission (vol_idx v) loc v) /\
    nth_error (fst (layer_op s b (vs1 ++ v :: vs2)))
              (length (fst (layer_op s b vs1)) + i) =
      Some (mk_emission (vol_idx v) loc v).
Proof.
  intros Hb Hs Hg H1 n Hi.
  assert (Hv := sample_volume_returns s b v locations Hb Hs Hg).
  assert (Htotal : extend_n_patches n b =
                   n + (if n mod b =? 0 then 0 else b - n mod b)).
  { unfold extend_n_patches, extra_patches. destruct (n mod b =? 0); reflexivity. }
  assert (Hn : (0 < shape0 locations)%nat).
  { destruct (Nat.eq_dec (shape0 locations) 0) as [Hz|Hnz]; [|lia].
    unfold n in Hi. rewrite Hz in Hi. change (Z.of_nat 0) with 0 in Hi.
    rewrite Z.mod_0_l in Hi by lia. simpl in Hi. lia. }
  assert (Hm : (i mod shape0 locations < shape0 locations)%nat)
    by (apply Nat.mod_upper_bound; lia).
  destruct (nth_error (rows locations) (i mod shape0 locations)) as [loc|] eqn:Hl;
    [|apply nth_error_None in Hl; unfold shape0 in *; lia].
  assert (Hemit : nth_error (fst (sample_volume s b v)) i =
                  Some (mk_emission (vol_idx v) loc v)).
  { rewrite Hv. simpl. unfold py_range. fold n.
    rewrite nth_error_map, nth_error_map, nth_error_seq.
    destruct (Nat.ltb_spec i (Z.to_nat (extend_n_patches n b))); [|lia].
    simpl. unfold n. rewrite <- Nat2Z.inj_mod, Nat2Z.id.
    now rewrite (nth_error_nth _ _ [] Hl). }
  exists loc. split; [reflexivity|]. split; [exact Hemit|].
  rewrite (layer_op_at_volume s b vs1 v vs2 (fst (sample_volume s b v)) H1)
    by (rewrite Hv; reflexivity).
  rewrite nth_error_app2 by lia.
  replace (length (fst (layer_op s b vs1)) + i - length (fst (layer_op s b vs1)))%nat
    with i by lia.
  rewrite nth_error_app1; [exact Hemit|].
  apply nth_error_Some. congruence.
Qed.

Lemma sampler_wrap_around_witness :
  nth_error (fst (layer_op (mk_GridSampler (1 # 1) 4 3) 2
                    ([mk_volume 6 [12]] ++ mk_volume 7 [10] :: [])))
            (length (fst (layer_op (mk_GridSampler (1 # 1) 4 3) 2
                            [mk_volume 6 [12]])) + 3) =
  Some (mk_emission 7 [0; 4] (mk_volume 7 [10])).
Proof.
  destruct (sampler_wrap_around (mk_GridSampler (1 # 1) 4 3) 2
              [mk_volume 6 [12]] [] (mk_volume 7 [10])
              (mk_ndarray2 2 [[0; 4]; [3; 7]; [6; 10]]) 3)
    as (loc & Hl & _ & Hrun).
  - lia.
  - simpl. lia.
  - reflexivity.
  - reflexivity.
  - simpl. lia.
  - simpl in Hl. injection Hl as <-. exact Hrun.
Defined.
